(** * git-pr-chain: the commit-chain model of [git-pr-chain.py]

    A shallow embedding of the label resolution ([Commit.gh_branch],
    [Commit.not_to_be_pushed], [Commit.is_merge_commit]), of the validation
    pass ([validate_branch_commits]), of the grouping done by
    [push_branches] / [create_and_update_prs] and of the pull-request
    decision made in the body of the loop of [create_and_update_prs].

    Characters are code points below 256 (Rocq's [ascii]); a commit message
    is a [string]. *)

From Equations Require Import Equations.
From Stdlib Require Import String Ascii List Bool Arith Lia.
Import ListNotations.
Open Scope string_scope.

(** ** Strings as Python sees them *)

Module Py.

Definition newline : ascii := "010"%char.

Definition is_newline (c : ascii) : bool := Ascii.eqb c newline.

(** [str.isspace] on one character, which is also what [\s] matches in a
    [str] pattern: 9..13, 28..32, 133 and 160. *)
Definition isspace (c : ascii) : bool :=
  let n := nat_of_ascii c in
  (((9 <=? n) && (n <=? 13)) || ((28 <=? n) && (n <=? 32))
   || (n =? 133) || (n =? 160))%nat.

(** [s.lstrip()]; the same function is the greedy [\s*] of the two
    patterns, which returns what is left of the subject. *)
Fixpoint lstrip (s : string) : string :=
  match s with
  | EmptyString => EmptyString
  | String c s' => if isspace c then lstrip s' else s
  end.

Fixpoint rstrip (s : string) : string :=
  match s with
  | EmptyString => EmptyString
  | String c s' =>
      match rstrip s' with
      | EmptyString => if isspace c then EmptyString else String c EmptyString
      | r => String c r
      end
  end.

(** [s.strip()] *)
Definition strip (s : string) : string := rstrip (lstrip s).

(** [s.split(sep)] for a separator of one character: one more piece than
    there are separators; [''.split(sep) == ['']]. *)
Fixpoint split (sep : ascii) (s : string) : list string :=
  match s with
  | EmptyString => [EmptyString]
  | String c s' =>
      if Ascii.eqb c sep then EmptyString :: split sep s'
      else match split sep s' with
           | l :: ls => String c l :: ls
           | [] => [String c EmptyString]
           end
  end.

(** [sep.join(l)] *)
Fixpoint join (sep : string) (l : list string) : string :=
  match l with
  | [] => EmptyString
  | [x] => x
  | x :: l' => x ++ sep ++ join sep l'
  end.

(** A literal at the current position of the subject: what follows it. *)
Fixpoint literal (p s : string) : option string :=
  match p with
  | EmptyString => Some s
  | String a p' =>
      match s with
      | EmptyString => None
      | String b s' => if Ascii.eqb a b then literal p' s' else None
      end
  end.

(** The character does not occur in the string. *)
Fixpoint lacks (c : ascii) (s : string) : bool :=
  match s with
  | EmptyString => true
  | String a s' => negb (Ascii.eqb a c) && lacks c s'
  end.

(** Truth value of a [str]: the empty string is false. *)
Definition truthy (s : string) : bool :=
  match s with EmptyString => false | _ => true end.

(** Truth value of an [Optional[str]]: [None] and [''] are false. *)
Definition truthy_opt (o : option string) : bool :=
  match o with None => false | Some s => truthy s end.

End Py.

(** ** The two regular expressions *)

Module Re.
Import Py.

(** [(?:git-pr-chain|GPC):] at the current position. *)
Definition keyword (s : string) : option string :=
  match literal "git-pr-chain:" s with
  | Some r => Some r
  | None => literal "GPC:" s
  end.

(** The capture group around [.*], without DOTALL: the longest run
    without a newline, and what follows it. *)
Fixpoint dot_star (s : string) : string * string :=
  match s with
  | EmptyString => (EmptyString, EmptyString)
  | String c s' =>
      if is_newline c then (EmptyString, s)
      else let (g, r) := dot_star s' in (String c g, r)
  end.

(** The pattern of [gh_branch] after its [^] (the keyword, [\s*], then
    the group around [.*]) at the current position: group 1 and what
    follows the match.  [\s*] is greedy and [.*] accepts the empty
    string, so the first attempt succeeds and nothing backtracks. *)
Definition annotation_at (s : string) : option (string * string) :=
  match keyword s with
  | Some r => Some (dot_star (lstrip r))
  | None => None
  end.

(** [(git-pr-chain|GPC):\s*STOP\>] at the current position.  In Python's
    [re], a backslash before [>] is that character itself, so the
    pattern ends in the five characters [STOP>].  [STOP>] starts with a
    character that is not white space, so only the longest [\s*] can
    be followed by it. *)
Definition stop_at (s : string) : bool :=
  match keyword s with
  | Some r => match literal "STOP>" (lstrip r) with
              | Some _ => true
              | None => false
              end
  | None => false
  end.

(** [bool(re.search(r"(git-pr-chain|GPC):\s*STOP\>", s))] *)
Fixpoint search_stop (s : string) : bool :=
  stop_at s
  || match s with
     | EmptyString => false
     | String _ s' => search_stop s'
     end.

(** A pattern without a newline. *)
Fixpoint no_newline (p : string) : bool :=
  match p with
  | EmptyString => true
  | String c p' => negb (is_newline c) && no_newline p'
  end.

Lemma literal_length p s r :
  literal p s = Some r -> String.length s = String.length p + String.length r.
Proof.
  revert s; induction p as [|a p IH]; intros [|b s] H; simpl in *;
    try discriminate; try (injection H as <-; reflexivity).
  destruct (Ascii.eqb a b); [|discriminate].
  rewrite (IH _ H); reflexivity.
Qed.

Lemma keyword_length s r :
  keyword s = Some r -> String.length r < String.length s.
Proof.
  unfold keyword.
  destruct (literal "git-pr-chain:" s) eqn:E1.
  - intros [= <-]. apply literal_length in E1. simpl in E1. lia.
  - intros E2. apply literal_length in E2. simpl in E2. lia.
Qed.

Lemma lstrip_length s : String.length (lstrip s) <= String.length s.
Proof.
  induction s as [|c s IH]; simpl; [lia|].
  destruct (isspace c); simpl; lia.
Qed.

Lemma dot_star_length s :
  String.length (snd (dot_star s)) <= String.length s.
Proof.
  induction s as [|c s IH]; simpl; [lia|].
  destruct (is_newline c); simpl; [lia|].
  destruct (dot_star s); simpl in *; lia.
Qed.

Lemma annotation_at_length s g r :
  annotation_at s = Some (g, r) -> String.length r < String.length s.
Proof.
  unfold annotation_at.
  destruct (keyword s) as [k|] eqn:E; [|discriminate].
  intros [= H]. apply keyword_length in E.
  pose proof (lstrip_length k). pose proof (dot_star_length (lstrip k)).
  rewrite H in *. simpl in *. lia.
Qed.

Definition inspect {A} (a : A) : {b : A | a = b} := exist _ a eq_refl.

(** [re.findall] with the pattern of [gh_branch] and [re.MULTILINE], from
    a position of the subject: [bol] says whether [^] matches there (at
    the start, and after a newline).  After a match the scan resumes
    where the match ended; that position follows a character of the
    match, which is a newline only when the match reached the end of the
    subject, where nothing matches any more. *)
Equations findall_from (bol : bool) (s : string) : list string
  by wf (String.length s) lt :=
  findall_from bol s with inspect (if bol then annotation_at s else None) := {
    | exist _ (Some (g, r)) _ => g :: findall_from false r
    | exist _ None _ with s := {
        | EmptyString => []
        | String c s' => findall_from (is_newline c) s' } }.
Next Obligation.
  destruct bol; [|discriminate].
  eapply annotation_at_length; eauto.
Qed.

Definition findall (s : string) : list string := findall_from true s.

End Re.

(** ** Outcomes: a value, [fatal] (a message and [sys.exit(1)]), or an
    exception that nothing catches *)

Module Outcome.

Inductive failure (C : Type) : Type :=
| MultipleLines (sha : string)
    (** [Commit {sha} has multiple git-pr-chain lines.] *)
| NoUpstream
    (** [Set an upstream branch with ...] *)
| MergeCommits (merge_commits : list C)
    (** [History contained merge commit(s): ...] *)
| AABA (repeated_branches : list string)
    (** [Upstream branch(es) AABA problem. ...] *)
| NoBranchInferred (commits_without_branch : list C)
    (** [Unable to infer upstream branches for commit(s): ...] *)
| MultipleOpenPRs (branch : string) (pr_urls : list string)
    (** [Branch {branch} has multiple open PRs: ...] *)
| TypeError
    (** [str + None] *)
| CalledProcessError.
    (** git exits with a status that is not 0, and [git], called without
        [err_ok], raises the exception again *)

Arguments MultipleLines {C}.
Arguments NoUpstream {C}.
Arguments MergeCommits {C}.
Arguments AABA {C}.
Arguments NoBranchInferred {C}.
Arguments MultipleOpenPRs {C}.
Arguments TypeError {C}.
Arguments CalledProcessError {C}.

Inductive result (C A : Type) : Type :=
| Ok (a : A)
| Err (e : failure C).

Arguments Ok {C A}.
Arguments Err {C A}.

Definition bind {C A B} (m : result C A) (k : A -> result C B) : result C B :=
  match m with
  | Ok a => k a
  | Err e => Err e
  end.

(** The elements are evaluated from left to right; the first failure is
    the outcome. *)
Fixpoint mapM {C A B} (f : A -> result C B) (l : list A) : result C (list B) :=
  match l with
  | [] => Ok []
  | x :: l' => bind (f x) (fun y => bind (mapM f l') (fun ys => Ok (y :: ys)))
  end.

End Outcome.

Notation "x <- m ;; k" := (Outcome.bind m (fun x => k))
  (at level 61, m at next level, right associativity).

(** ** What git answers *)

Module Git.
Import Py.

(** The part of the repository that the program reads: the message of a
    commit and the hashes of its parents there, by hash. *)
Record Repo : Type := mkRepo {
  message : string -> string;
  parents : string -> list string
}.

Definition nl : string := String newline EmptyString.

(** Standard output of [git show --no-patch --format=%B sha]: the message
    and a newline. *)
Definition show_B (repo : Repo) (sha : string) : string :=
  message repo sha ++ nl.

(** Standard output of [git show --no-patch --format=%P sha]: git prints
    the parent hashes on one line, a space between them. *)
Definition show_P (repo : Repo) (sha : string) : string :=
  join " " (parents repo sha) ++ nl.

(** What [git for-each-ref --format=%(upstream:short)] prints for a branch
    that tracks [branch] of [remote]. *)
Definition upstream_short (remote branch : string) : string :=
  remote ++ "/" ++ branch.

(** [git(...)] returns the output stripped. *)
Definition git_show_B (repo : Repo) (sha : string) : string :=
  strip (show_B repo sha).

Definition git_show_P (repo : Repo) (sha : string) : string :=
  strip (show_P repo sha).

End Git.

(** ** Commits and their derived properties *)

Module Chain.
Import Py Re Outcome.

Local Unset Elimination Schemes.

(** [class Commit]: a hash and the previous commit of the chain. *)
Inductive Commit : Type := mkCommit {
  sha : string;
  parent : option Commit
}.
Local Set Elimination Schemes.

(** Induction along the parent links. *)
Fixpoint Commit_ind (P : Commit -> Prop)
  (Hroot : forall s, P (mkCommit s None))
  (Hchild : forall s p, P p -> P (mkCommit s (Some p)))
  (c : Commit) : P c :=
  match c with
  | mkCommit s None => Hroot s
  | mkCommit s (Some p) => Hchild s p (Commit_ind P Hroot Hchild p)
  end.

Definition res := result Commit.

(** Python's [==] on [Optional[str]]. *)
Definition label_eqb (a b : option string) : bool :=
  match a, b with
  | None, None => true
  | Some x, Some y => String.eqb x y
  | _, _ => false
  end.

(** [itertools.groupby] over elements paired with their keys: maximal
    runs of equal keys, in order.  Equality of labels is transitive, so
    comparing with the key of the next element or with the key the run
    started with is the same. *)
Fixpoint groupby {A : Type} (l : list (option string * A))
  : list (option string * list A) :=
  match l with
  | [] => []
  | (k, x) :: l' =>
      match groupby l' with
      | (k', g) :: rest =>
          if label_eqb k k' then (k, x :: g) :: rest
          else (k, [x]) :: (k', g) :: rest
      | [] => [(k, [x])]
      end
  end.

(** An iterator that is read through one name: what it will still
    yield.  Reading it to the end leaves it empty. *)
Record iterator (A : Type) : Type := mkIter { pending : list A }.
Arguments mkIter {A}.
Arguments pending {A}.

Definition drain {A} (it : iterator A) : list A * iterator A :=
  (pending it, mkIter []).

(** [collections.Counter], in insertion order. *)
Fixpoint counter_incr (ctr : list (string * nat)) (b : string)
  : list (string * nat) :=
  match ctr with
  | [] => [(b, 1)]
  | (k, n) :: rest =>
      if String.eqb k b then (k, S n) :: rest
      else (k, n) :: counter_incr rest b
  end.

Definition Counter (l : list string) : list (string * nat) :=
  fold_left counter_incr l [].

(** [l[1:-1]] *)
Definition slice_1_m1 {A} (l : list A) : list A := removelast (tl l).

Definition nonempty {A} (l : list A) : bool :=
  match l with [] => false | _ => true end.

Section WithRepo.
Variable repo : Git.Repo.

Definition commit_msg (c : Commit) : string := Git.git_show_B repo (sha c).

Fixpoint not_to_be_pushed (c : Commit) : bool :=
  if match parent c with
     | Some p => not_to_be_pushed p
     | None => false
     end
  then true
  else search_stop (commit_msg c).

Fixpoint gh_branch (c : Commit) : res (option string) :=
  if not_to_be_pushed c then Ok None
  else
    match findall (commit_msg c) with
    | [] => match parent c with
            | Some p => gh_branch p
            | None => Ok None
            end
    | [m] => Ok (Some m)
    | _ => Err (MultipleLines (sha c))
    end.

Definition is_merge_commit (c : Commit) : bool :=
  (1 <? List.length (split newline (Git.git_show_P repo (sha c))))%nat.

(** The truthy keys of the groups, as the generator given to
    [Counter] yields them. *)
Definition truthy_keys {A} (groups : list (option string * A))
  : list string :=
  flat_map (fun g => match fst g with
                     | Some b => if truthy b then [b] else []
                     | None => []
                     end) groups.

Definition validate_branch_commits (commits : list Commit) : res unit :=
  let merge_commits := filter is_merge_commit commits in
  if nonempty merge_commits then Err (MergeCommits merge_commits)
  else
    labels <- mapM gh_branch commits ;;
    let grouped_commits := mkIter (groupby (combine labels commits)) in
    let (yielded, grouped_commits) := drain grouped_commits in
    let ctr := Counter (truthy_keys yielded) in
    let repeated_branches :=
      map fst (filter (fun bc => (1 <? snd bc)%nat) ctr) in
    if nonempty repeated_branches then Err (AABA repeated_branches)
    else
      let (listed, _) := drain grouped_commits in
      let commits_without_branch :=
        concat (map snd (filter (fun g => negb (truthy_opt (fst g)))
                                (slice_1_m1 listed))) in
      if nonempty commits_without_branch
      then Err (NoBranchInferred commits_without_branch)
      else Ok tt.

(** The loop of [branch_commits] that builds the chain: empty lines of
    the log are skipped, each commit's parent is the one before it. *)
Fixpoint chain_from (last : option Commit) (log : list string)
  : list Commit :=
  match log with
  | [] => []
  | sha :: log' =>
      if truthy sha
      then let c := mkCommit sha last in c :: chain_from (Some c) log'
      else chain_from last log'
  end.

(** The loop of [branch_commits] over the commits after the first: the
    label of each is resolved, and when it is false, the label of the
    commit before it.  What the loop stores is never read. *)
Fixpoint infer_loop (previous : Commit) (rest : list Commit) : res unit :=
  match rest with
  | [] => Ok tt
  | c :: rest' =>
      b <- gh_branch c ;;
      _ <- (if truthy_opt b then Ok None else gh_branch previous) ;;
      infer_loop c rest'
  end.

(** [branch_commits], given the tracked upstream ref and the lines of
    [git log --reverse --pretty=%H upstream..HEAD]. *)
Definition branch_commits (upstream_branch : string) (log : list string)
  : res (list Commit) :=
  if negb (truthy upstream_branch) then Err NoUpstream
  else
    let commits := chain_from None log in
    _ <- match commits with
         | [] => Ok tt
         | first :: rest => infer_loop first rest
         end ;;
    _ <- validate_branch_commits commits ;;
    Ok commits.

(** [gh_branch_prefix()].  [branch_prefix] is what
    [git("config", "pr-chain.branch-prefix")] returns, and [None] when the
    key is not set: git exits with 1 and [git] raises. *)
Definition gh_branch_prefix (branch_prefix : option string) : res string :=
  match branch_prefix with
  | Some value => Ok (strip value)
  | None => Err CalledProcessError
  end.

(** The list [grouped_commits] of [push_branches] and of
    [create_and_update_prs]: for every group that [groupby] yields, the
    prefix is looked up and concatenated with the key, [None] included. *)
Definition grouped_commits (branch_prefix : option string)
  (commits : list Commit) : res (list (string * list Commit)) :=
  labels <- mapM gh_branch commits ;;
  mapM (fun g => prefix <- gh_branch_prefix branch_prefix ;;
                 match fst g with
                 | Some branch => Ok (prefix ++ branch, snd g)
                 | None => Err TypeError
                 end)
       (groupby (combine labels commits)).

End WithRepo.

End Chain.


(** ** Pushing, and creating or updating pull requests *)

Module Sync.
Import Py Outcome Chain.

(** An open pull request, as far as the program reads it. *)
Record PullRequest : Type := mkPR {
  number : nat;
  head_ref : string;
  base_ref : string;
  url : string
}.

(** The calls that change the remote. *)
Inductive action : Type :=
| ForcePush (remote sha branch : string)
    (** [git push -f remote sha:refs/heads/branch] *)
| CreatePull (title body base head : string)
    (** [repo.create_pull(title, body, base, head)] *)
| EditBase (pr : nat) (base : string).
    (** [pr.edit(base)] *)

(** The four branches of the loop body of [create_and_update_prs]. *)
Inductive decision : Type :=
| Create (base head : string)
| UpdateBase (pr : nat) (old_base new_base : string)
| NoOp
| Ambiguous (pr_urls : list string).

(** [push(branch_and_commits)]: the last commit of the group goes to the
    branch.  A group of [groupby] has a commit. *)
Definition push (dry_run : bool) (remote : string)
  (branch_and_commits : string * list Commit) : list action :=
  let (branch, cs) := branch_and_commits in
  if dry_run then []
  else match rev cs with
       | c :: _ => [ForcePush remote (sha c) branch]
       | [] => []
       end.

(** [git_upstream_remote()] *)
Definition git_upstream_remote (upstream_branch : string) : string :=
  hd EmptyString (split "/" upstream_branch).

(** [git_upstream_branch().split("/")[-1]] *)
Definition upstream_base (upstream_branch : string) : string :=
  last (split "/" upstream_branch) EmptyString.

(** The base computed at index [idx] of the loop. *)
Definition pr_base (upstream_branch : string)
  (grouped : list (string * list Commit)) (idx : nat) : string :=
  match idx with
  | S i => fst (nth i grouped (EmptyString, []))
  | O => upstream_base upstream_branch
  end.

(** The list [prs]: what the registry returned, filtered again by head. *)
Definition prs_for (branch : string) (pulls : list PullRequest)
  : list PullRequest :=
  filter (fun pr => String.eqb (head_ref pr) branch) pulls.

Definition decide (branch base : string) (prs : list PullRequest) : decision :=
  match prs with
  | [] => Create base branch
  | [pr] =>
      if negb (String.eqb (base_ref pr) base)
      then UpdateBase (number pr) (base_ref pr) base
      else NoOp
  | _ => Ambiguous (map url prs)
  end.

Definition perform (dry_run : bool) (d : decision) : list action :=
  if dry_run then []
  else match d with
       | Create base head => [CreatePull head EmptyString base head]
       | UpdateBase pr _ base => [EditBase pr base]
       | NoOp | Ambiguous _ => []
       end.

Section WithRepo.
Variable repo : Git.Repo.
Variable dry_run : bool.
(** What [git("config", "pr-chain.branch-prefix")] returns, [None] when the
    key is not set. *)
Variable branch_prefix : option string.
Variable upstream_branch : string.
Variable log : list string.
(** [repo.get_pulls(state="open", head=branch)]: the open pull requests the
    registry answers with when asked for a head.  Each group is asked for
    once, and its own call changes no pull request of another head. *)
Variable get_pulls : string -> list PullRequest.

Definition push_branches : res (list action) :=
  commits <- branch_commits repo upstream_branch log ;;
  grouped <- grouped_commits repo branch_prefix commits ;;
  let remote := git_upstream_remote upstream_branch in
  Ok (flat_map (push dry_run remote) grouped).

(** The loop over [enumerate(grouped_commits)], from index [idx]: the calls
    made, and how the loop ended. *)
Fixpoint pr_loop (grouped : list (string * list Commit)) (idx : nat)
  (todo : list (string * list Commit)) : list action * res unit :=
  match todo with
  | [] => ([], Ok tt)
  | (branch, _) :: todo' =>
      let base := pr_base upstream_branch grouped idx in
      let prs := prs_for branch (get_pulls branch) in
      match decide branch base prs with
      | Ambiguous pr_urls => ([], Err (MultipleOpenPRs branch pr_urls))
      | d =>
          let (acts, r) := pr_loop grouped (S idx) todo' in
          ((perform dry_run d ++ acts)%list, r)
      end
  end.

Definition create_and_update_prs : list action * res unit :=
  match (commits <- branch_commits repo upstream_branch log ;;
         grouped_commits repo branch_prefix commits) with
  | Ok grouped => pr_loop grouped 0 grouped
  | Err e => ([], Err e)
  end.

End WithRepo.

End Sync.

(** ** The vocabulary of the specification *)

Module Spec.
Import Py Re Outcome Chain.

Definition lines (msg : string) : list string := split newline msg.

(** A line that starts with one of the two keywords and a colon. *)
Definition is_annotation_line (l : string) : bool :=
  match keyword l with
  | Some _ => true
  | None => false
  end.

Definition annotation_lines (msg : string) : list string :=
  filter is_annotation_line (lines msg).

(** The value an annotation line carries: what follows the colon, without
    the white space around it. *)
Definition annotation_value (l : string) : option string :=
  option_map strip (keyword l).

(** An annotation line whose value is not blank. *)
Definition carries_value (l : string) : bool :=
  match annotation_value l with
  | Some v => truthy v
  | None => false
  end.

(** The label [b] appears, is interrupted by a different label, and
    appears again: it is in more than one maximal run. *)
Definition reappears (b : option string) (labels : list (option string))
  : Prop :=
  exists l1 l2 x l3,
    labels = (l1 ++ b :: l2 ++ x :: l3)%list /\ x <> b /\ In b l3.

(** A run of [None] strictly between two labelled runs. *)
Definition none_between (labels : list (option string)) : Prop :=
  exists l1 a n b l3,
    labels = (l1 ++ Some a :: repeat None (S n) ++ Some b :: l3)%list.

(** The commit and its ancestors, the commit first. *)
Fixpoint ancestry (c : Commit) : list Commit :=
  c :: match parent c with
       | Some p => ancestry p
       | None => []
       end.

(** The root of the chain a commit is on. *)
Fixpoint root (c : Commit) : Commit :=
  match parent c with
  | Some p => root p
  | None => c
  end.

(** *** Views used in the proofs *)

(** The keys of the maximal runs of a list of labels. *)
Fixpoint run_keys (labels : list (option string)) : list (option string) :=
  match labels with
  | [] => []
  | k :: l' =>
      match run_keys l' with
      | k' :: rest => if label_eqb k k' then k :: rest else k :: k' :: rest
      | [] => [k]
      end
  end.

(** How many runs carry the label. *)
Definition run_count (k : option string) (labels : list (option string)) : nat :=
  List.length (filter (label_eqb k) (run_keys labels)).

(** The count a [Counter] holds for a key; 0 when the key is absent. *)
Definition counter_get (ctr : list (string * nat)) (b : string) : nat :=
  match find (fun e => String.eqb (fst e) b) ctr with
  | Some e => snd e
  | None => 0
  end.

Definition occurrences (b : string) (l : list string) : nat :=
  List.length (filter (String.eqb b) l).

(** The validation after the check for merge commits. *)
Definition validate_labels (commits : list Commit) (labels : list (option string))
  : res unit :=
  let repeated_branches :=
    map fst (filter (fun bc => (1 <? snd bc)%nat)
                    (Counter (truthy_keys (groupby (combine labels commits))))) in
  if nonempty repeated_branches then Err (AABA repeated_branches) else Ok tt.

End Spec.


(** ** Concrete repositories *)

Module Examples.
Import Py Git Chain.

(** A repository given as a table: hash, message, parent hashes. *)
Definition entry : Type := (string * (string * list string))%type.

Definition lookup (table : list entry) (sha : string) : option entry :=
  find (fun e => String.eqb (fst e) sha) table.

Definition repo_of (table : list entry) : Repo :=
  mkRepo
    (fun sha => match lookup table sha with
                | Some e => fst (snd e)
                | None => EmptyString
                end)
    (fun sha => match lookup table sha with
                | Some e => snd (snd e)
                | None => []
                end).

(** Four commits on top of [0f]: no annotation, [feat-x], nothing (so
    [feat-x] again), [feat-y]. *)
Definition scenario : Repo :=
  repo_of [ ("a1", ("Initial work", ["0f"]));
            ("b2", ("Add x" ++ nl ++ nl ++ "GPC: feat-x", ["a1"]));
            ("c3", ("More x", ["b2"]));
            ("d4", ("Add y" ++ nl ++ nl ++ "git-pr-chain: feat-y", ["c3"])) ].

Definition scenario_log : list string := ["a1"; "b2"; "c3"; "d4"].

(** The same history when the upstream already holds [a1]. *)
Definition labelled_log : list string := ["b2"; "c3"; "d4"].

(** [feat-x], then the terminal marker as the documentation writes it,
    then [feat-z]. *)
Definition stop_plain : Repo :=
  repo_of [ ("a1", ("GPC: feat-x", ["0f"]));
            ("b2", ("Not ready" ++ nl ++ nl ++ "GPC: STOP", ["a1"]));
            ("c3", ("GPC: feat-z", ["b2"])) ].

(** The marker the pattern accepts, on the parent; two annotation lines on
    the child. *)
Definition stop_then_two_lines : Repo :=
  repo_of [ ("a1", ("GPC: STOP>", ["0f"]));
            ("b2", ("GPC: feat-a" ++ nl ++ "GPC: feat-b", ["a1"])) ].

(** Two annotation lines, nothing non-pushable. *)
Definition two_lines : Repo :=
  repo_of [ ("a1", ("GPC: feat-a" ++ nl ++ "GPC: feat-b", ["0f"])) ].

(** The second annotation line is swallowed by the white space after the
    first colon. *)
Definition blank_first_line : Repo :=
  repo_of [ ("a1", ("GPC:" ++ nl ++ "GPC: feat-b", ["0f"])) ].

(** A labelled parent; the child has the accepted marker on an indented
    line, which is no annotation line. *)
Definition indented_stop : Repo :=
  repo_of [ ("a1", ("GPC: feat-x", ["0f"]));
            ("b2", ("Fix" ++ nl ++ nl ++ "  GPC: STOP>", ["a1"])) ].

(** A merge of [1f] and [2e]. *)
Definition with_merge : Repo :=
  repo_of [ ("a1", ("GPC: feat-x", ["0f"]));
            ("b2", ("Merge branch side" ++ nl ++ nl ++ "GPC: feat-x",
                    ["a1"; "2e"])) ].

(** [x], [y], [x] again. *)
Definition aaba : Repo :=
  repo_of [ ("a1", ("GPC: x", ["0f"]));
            ("b2", ("GPC: y", ["a1"]));
            ("c3", ("GPC: x", ["b2"])) ].

(** The empty label, [y], the empty label again. *)
Definition empty_label : Repo :=
  repo_of [ ("a1", ("GPC:", ["0f"]));
            ("b2", ("GPC: y", ["a1"]));
            ("c3", ("GPC:", ["b2"])) ].

(** Messages for three commits that are handed to the validation without
    parent links. *)
Definition gap : Repo :=
  repo_of [ ("a1", ("GPC: feat-a", ["0f"]));
            ("b2", ("No annotation", ["a1"]));
            ("c3", ("GPC: feat-b", ["b2"])) ].

Definition gap_commits : list Commit :=
  [mkCommit "a1" None; mkCommit "b2" None; mkCommit "c3" None].

Definition three_log : list string := ["a1"; "b2"; "c3"].

(** The chain that [branch_commits] builds from the log [a1 b2 c3 d4]. *)
Definition a1 : Commit := mkCommit "a1" None.
Definition b2 : Commit := mkCommit "b2" (Some a1).
Definition c3 : Commit := mkCommit "c3" (Some b2).
Definition d4 : Commit := mkCommit "d4" (Some c3).

(** What a registry answers for four heads: for [new] only a pull request
    of another head, for [moved] one whose base is [old], for [same] one
    whose base is [main], for [twice] two. *)
Definition registry (head : string) : list Sync.PullRequest :=
  if String.eqb head "new" then
    [Sync.mkPR 1 "other" "main" "https://pulls/1"]
  else if String.eqb head "moved" then
    [Sync.mkPR 1 "other" "main" "https://pulls/1";
     Sync.mkPR 2 "moved" "old" "https://pulls/2"]
  else if String.eqb head "same" then
    [Sync.mkPR 3 "same" "main" "https://pulls/3"]
  else if String.eqb head "twice" then
    [Sync.mkPR 4 "twice" "main" "https://pulls/4";
     Sync.mkPR 1 "other" "main" "https://pulls/1";
     Sync.mkPR 5 "twice" "feat-x" "https://pulls/5"]
  else [].

End Examples.

(** ** More vocabulary and more repositories *)

Module Terms.
Import Py Re Outcome Git Chain Sync.

(** The text an annotation line gives as a label: what follows the colon,
    without the white space before it, with the white space after it. *)
Definition label_text (l : string) : string :=
  match keyword l with
  | Some v => lstrip v
  | None => EmptyString
  end.

(** The branch a push goes to. *)
Definition pushed_branch (a : action) : option string :=
  match a with
  | ForcePush _ _ branch => Some branch
  | _ => None
  end.

(** The values of the entries that have one. *)
Fixpoint somes {A} (l : list (option A)) : list A :=
  match l with
  | [] => []
  | Some x :: l' => x :: somes l'
  | None :: l' => somes l'
  end.

End Terms.

Module MoreExamples.
Import Py Git Chain Examples.

(** An annotation line in the middle of the message, with two spaces
    after the label. *)
Definition trailing_space : Repo :=
  repo_of [ ("a1", ("Add x" ++ nl ++ "GPC:   feat-x  " ++ nl ++ "Details",
                    ["0f"])) ].

End MoreExamples.

(** ** The two commands *)

Module Commands.
Import Py Outcome Git Chain Sync.

(** What [cmd_show] prints, piece by piece. *)
Inductive shown : Type :=
| Summary (upstream_branch : string) (ahead : nat)
    (** [Current branch is downstream from ..., n commit(s) ahead.] *)
| BranchHeader (branch : string)
    (** [Github branch {branch}] *)
| StopHeader
    (** [Will not be pushed; remove git-pr-chain:STOP to push.] *)
| NoBranchHeader
    (** [No github branch; will not be pushed. ...] *)
| LogLine (sha : string).
    (** two spaces, then [git log -n1 --oneline sha] *)

Inductive show_outcome : Type :=
| Shown (out : list shown)
| NoCommits
    (** [No commits in branch. ...], fatal *)
| ShowFailed (e : failure Commit).


(** The branch a heading names. *)
Definition heading_branch (x : shown) : option string :=
  match x with
  | BranchHeader branch => Some branch
  | _ => None
  end.

(** The head of a pull request that is created. *)
Definition created_head (a : action) : option string :=
  match a with
  | CreatePull _ _ _ head => Some head
  | _ => None
  end.

Section WithRepo.
Variable repo : Git.Repo.

(** The heading of a group in [cmd_show].  A group of [groupby] has a
    commit, so [cs[0]] is there. *)
Definition show_header (branch : option string) (cs : list Commit)
  : list shown :=
  if truthy_opt branch
  then match branch with
       | Some b => [BranchHeader b]
       | None => []
       end
  else match cs with
       | first :: _ =>
           if not_to_be_pushed repo first then [StopHeader]
           else [NoBranchHeader]
       | [] => []
       end.

Definition show_group (g : option string * list Commit) : list shown :=
  (show_header (fst g) (snd g) ++ map (fun c => LogLine (sha c)) (snd g))%list.

Definition cmd_show (upstream_branch : string) (log : list string)
  : show_outcome :=
  match branch_commits repo upstream_branch log with
  | Err e => ShowFailed e
  | Ok commits =>
      if negb (nonempty commits) then NoCommits
      else
        match mapM (gh_branch repo) commits with
        | Err e => ShowFailed e
        | Ok labels =>
            Shown (Summary upstream_branch (List.length commits)
                   :: flat_map show_group (groupby (combine labels commits)))
        end
  end.

(** [cmd_upload]: the pushes, then the pull requests; a failure of the
    first part ends the command. *)
Definition cmd_upload (dry_run : bool) (branch_prefix : option string)
  (upstream_branch : string)
  (log : list string) (get_pulls : string -> list PullRequest)
  : list action * res unit :=
  match push_branches repo dry_run branch_prefix upstream_branch log with
  | Err e => ([], Err e)
  | Ok pushes =>
      let (calls, r) :=
        create_and_update_prs repo dry_run branch_prefix upstream_branch log
          get_pulls in
      ((pushes ++ calls)%list, r)
  end.

End WithRepo.

End Commands.

(** ** The repository on github *)

Module Remote.
Import Py.

(** The class of the two separators, [/] and [:]. *)
Definition is_sep (c : ascii) : bool :=
  Ascii.eqb c "/" || Ascii.eqb c ":".

(** No character of the string is a separator. *)
Fixpoint sep_free (s : string) : bool :=
  match s with
  | EmptyString => true
  | String c s' => negb (is_sep c) && sep_free s'
  end.

(** One or more characters that are not separators, at the current
    position: every way to take them, the longest first, each with what
    follows it. *)
Fixpoint plus_not_sep (s : string) : list (string * string) :=
  match s with
  | EmptyString => []
  | String c s' =>
      if is_sep c then []
      else (map (fun tr => (String c (fst tr), snd tr)) (plus_not_sep s')
            ++ [(String c EmptyString, s')])%list
  end.

(** [$] without MULTILINE: at the end of the subject, and before a newline
    that ends it. *)
Definition at_end (s : string) : bool :=
  match s with
  | EmptyString => true
  | String c EmptyString => is_newline c
  | _ => false
  end.

(** The first alternative that succeeds. *)
Fixpoint first_some {A B} (f : A -> option B) (l : list A) : option B :=
  match l with
  | [] => None
  | x :: l' => match f x with
               | Some y => Some y
               | None => first_some f l'
               end
  end.

(** The pattern of [gh_repo_client] at the current position: a separator,
    the group (characters that are not separators, a slash, characters
    that are not separators), the text [.git], the end.  The result is the
    group. *)
Definition repo_at (s : string) : option string :=
  match s with
  | EmptyString => None
  | String c r =>
      if is_sep c
      then first_some
             (fun a =>
                match literal "/" (snd a) with
                | Some r2 =>
                    first_some
                      (fun b =>
                         match literal ".git" (snd b) with
                         | Some r3 =>
                             if at_end r3 then Some (fst a ++ "/" ++ fst b)
                             else None
                         | None => None
                         end)
                      (plus_not_sep r2)
                | None => None
                end)
             (plus_not_sep r)
      else None
  end.

(** [re.search] with that pattern: group 1 of the leftmost match. *)
Fixpoint search_repo (s : string) : option string :=
  match repo_at s with
  | Some g => Some g
  | None => match s with
            | EmptyString => None
            | String _ s' => search_repo s'
            end
  end.

(** Views used in the proofs: the number of separators, the last
    character. *)
Fixpoint count_sep (s : string) : nat :=
  match s with
  | EmptyString => 0
  | String c s' => (if is_sep c then 1 else 0) + count_sep s'
  end.

Fixpoint last_char (s : string) : option ascii :=
  match s with
  | EmptyString => None
  | String c EmptyString => Some c
  | String _ s' => last_char s'
  end.

(** How [gh_repo_client] ends before it asks github: the name of the
    repository, or the fatal message with the remote and its url. *)
Inductive repo_name : Type :=
| RepoNamed (gh_repo_name : string)
| NoGithubRepo (remote remote_url : string).

(** [gh_repo_client] up to the name, given the tracked upstream ref and
    what [git remote get-url] prints for a remote. *)
Definition gh_repo_name (upstream_branch : string) (get_url : string -> string)
  : repo_name :=
  let remote := Sync.git_upstream_remote upstream_branch in
  let remote_url := strip (get_url remote) in
  match search_repo remote_url with
  | Some name => RepoNamed name
  | None => NoGithubRepo remote remote_url
  end.

End Remote.

(** ** The token for github *)

Module Auth.
Import Py.

Local Unset Elimination Schemes.

(** What [yaml.safe_load] returns, as far as it is modelled: null,
    booleans, integers, strings, sequences, and mappings whose keys are
    strings. *)
Inductive yaml : Type :=
| YNull
| YBool (b : bool)
| YInt (z : BinNums.Z)
| YStr (s : string)
| YList (l : list yaml)
| YMap (m : list (string * yaml)).

Local Set Elimination Schemes.

(** The exceptions that the lookup meets. *)
Inductive exn : Type :=
| FileNotFoundError
| YAMLError
| KeyError
| IndexError
| TypeError.

(** A computation that returns or raises. *)
Inductive raising (A : Type) : Type :=
| Return (a : A)
| Raise (e : exn).
Arguments Return {A}.
Arguments Raise {A}.

(** A file of the configuration directory: absent, not valid YAML, or the
    value it loads to. *)
Inductive file : Type :=
| NoFile
| BadYaml
| Yaml (v : yaml).

(** Truth value of a loaded value. *)
Definition truth (v : yaml) : bool :=
  match v with
  | YNull => false
  | YBool b => b
  | YInt BinNums.Z0 => false
  | YInt _ => true
  | YStr s => truthy s
  | YList [] => false
  | YList _ => true
  | YMap [] => false
  | YMap _ => true
  end.

(** [m[key]] on a mapping. *)
Fixpoint lookup (key : string) (m : list (string * yaml)) : option yaml :=
  match m with
  | [] => None
  | (k, v) :: m' => if String.eqb k key then Some v else lookup key m'
  end.

(** [v[key]] for a string [key]. *)
Definition subscript (v : yaml) (key : string) : raising yaml :=
  match v with
  | YMap m => match lookup key m with
              | Some x => Return x
              | None => Raise KeyError
              end
  | _ => Raise TypeError
  end.

(** [v[0]] *)
Definition subscript_0 (v : yaml) : raising yaml :=
  match v with
  | YList (x :: _) => Return x
  | YList [] => Raise IndexError
  | YStr (String c _) => Return (YStr (String c EmptyString))
  | YStr EmptyString => Raise IndexError
  | YMap _ => Raise KeyError
  | _ => Raise TypeError
  end.

Definition and_then {A B} (c : raising A) (k : A -> raising B) : raising B :=
  match c with
  | Return a => k a
  | Raise e => Raise e
  end.

(** [os.path.join(a, b)] for a [b] that does not start with a slash. *)
Definition path_join (a b : string) : string :=
  match a with
  | EmptyString => b
  | _ => match String.get (String.length a - 1) a with
         | Some "/"%char => a ++ b
         | _ => a ++ "/" ++ b
         end
  end.

Section WithSystem.
(** The environment variables and the files. *)
Variable environ : string -> option string.
Variable files : string -> file.

(** [config_dir]: the default of [os.environ.get] is computed first, and it
    reads [HOME]. *)
Definition config_dir : raising string :=
  match environ "HOME" with
  | None => Raise KeyError
  | Some home =>
      let default := path_join home ".config" in
      match environ "XDG_CONFIG_HOME" with
      | Some dir => Return dir
      | None => Return default
      end
  end.

(** The body of the [try] of [get_token_from]. *)
Definition read_token (dir fname : string) : raising yaml :=
  match files (path_join dir fname) with
  | NoFile => Raise FileNotFoundError
  | BadYaml => Raise YAMLError
  | Yaml config =>
      and_then (subscript config "github.com") (fun hosts =>
      and_then (subscript_0 hosts) (fun host =>
      subscript host "oauth_token"))
  end.

(** [get_token_from]: three exceptions are turned into [None]. *)
Definition get_token_from (dir fname : string) : raising yaml :=
  match read_token dir fname with
  | Raise FileNotFoundError | Raise KeyError | Raise IndexError => Return YNull
  | r => r
  end.

(** How [gh_client] ends: a client made of the token, the fatal message
    that no token was found, or an exception. *)
Inductive client : Type :=
| Github (token : yaml)
| NoToken
| Raised (e : exn).

(** The loop of [gh_client] over the file names that are left. *)
Fixpoint first_token (dir : string) (fnames : list string) (token : yaml)
  : raising yaml :=
  match fnames with
  | [] => Return token
  | fname :: fnames' =>
      and_then (get_token_from dir fname) (fun token' =>
      if truth token' then Return token' else first_token dir fnames' token')
  end.

Definition gh_client : client :=
  match config_dir with
  | Raise e => Raised e
  | Return dir =>
      match first_token dir ["gh/config.yml"; "hub"] YNull with
      | Raise e => Raised e
      | Return token => if truth token then Github token else NoToken
      end
  end.

End WithSystem.

End Auth.

(** ** An upload, with the client *)

Module Upload.
Import Py Outcome Git Chain Sync.

(** How an upload ends. *)
Inductive ending : Type :=
| Finished
| Failed (e : failure Commit)
    (** a fatal message or an exception of the commits and the loop *)
| NoRepoName (remote remote_url : string)
    (** [Couldn't extract github user/repo from ...], fatal *)
| NoTokenFound
    (** [Couldn't get oauth token from gh or hub. ...], fatal *)
| TokenRaised (e : Auth.exn).
    (** an exception of the lookup of the token *)

Section WithSystem.
Variable repo : Git.Repo.
Variable dry_run : bool.
Variable branch_prefix : option string.
Variable upstream_branch : string.
Variable log : list string.
(** [git remote get-url] for a remote *)
Variable get_url : string -> string.
Variable environ : string -> option string.
Variable files : string -> Auth.file.
(** [Github(token).get_repo(name).get_pulls(state="open", head=branch)]:
    what the registry answers for a repository name, a token and a head. *)
Variable get_repo : string -> Auth.yaml -> string -> list PullRequest.

(** [gh_repo_client]: the name first, then the token. *)
Definition gh_repo_client : (string -> list PullRequest) + ending :=
  match Remote.gh_repo_name upstream_branch get_url with
  | Remote.NoGithubRepo remote remote_url => inr (NoRepoName remote remote_url)
  | Remote.RepoNamed name =>
      match Auth.gh_client environ files with
      | Auth.Github token => inl (get_repo name token)
      | Auth.NoToken => inr NoTokenFound
      | Auth.Raised e => inr (TokenRaised e)
      end
  end.

(** [create_and_update_prs]: the groups, then the client, then the loop. *)
Definition create_and_update_prs : list action * ending :=
  match (commits <- branch_commits repo upstream_branch log ;;
         grouped_commits repo branch_prefix commits) with
  | Err e => ([], Failed e)
  | Ok grouped =>
      match gh_repo_client with
      | inr e => ([], e)
      | inl get_pulls =>
          let (calls, r) :=
            pr_loop dry_run upstream_branch get_pulls grouped 0 grouped in
          (calls, match r with
                  | Ok _ => Finished
                  | Err e => Failed e
                  end)
      end
  end.

(** [cmd_upload] *)
Definition cmd_upload : list action * ending :=
  match push_branches repo dry_run branch_prefix upstream_branch log with
  | Err e => ([], Failed e)
  | Ok pushes =>
      let (calls, r) := create_and_update_prs in
      ((pushes ++ calls)%list, r)
  end.

End WithSystem.

End Upload.

(** ** Environments and configuration files of the examples *)

Module Configs.
Import Auth.

(** A mapping with the token [t0k] at [github.com], [0], [oauth_token]. *)
Definition hosts : list (string * yaml) :=
  [("editor", YStr "vi");
   ("github.com", YList [YMap [("user", YStr "u"); ("oauth_token", YStr "t0k")]])].

(** Only [HOME] is set. *)
Definition home_only (v : string) : option string :=
  if String.eqb v "HOME" then Some "/home/u" else None.

(** Only [XDG_CONFIG_HOME] is set. *)
Definition xdg_only (v : string) : option string :=
  if String.eqb v "XDG_CONFIG_HOME" then Some "/cfg" else None.

(** Every file holds the token. *)
Definition everywhere (p : string) : file := Yaml (YMap hosts).

(** Only the file of hub is there. *)
Definition hub_only (p : string) : file :=
  if String.eqb p "/home/u/.config/hub" then Yaml (YMap hosts) else NoFile.

(** The file of gh holds the token, every other file is not valid YAML. *)
Definition gh_only (p : string) : file :=
  if String.eqb p "/home/u/.config/gh/config.yml" then Yaml (YMap hosts)
  else BadYaml.

(** The file of gh is empty, every other file holds the token. *)
Definition gh_empty (p : string) : file :=
  if String.eqb p "/home/u/.config/gh/config.yml" then Yaml YNull
  else Yaml (YMap hosts).

End Configs.

Import Py Re Outcome Git Chain Sync Spec.

(** * Properties *)

(** ** Unfolding the derived properties *)

Lemma not_to_be_pushed_eq repo c :
  not_to_be_pushed repo c =
  (match parent c with
   | Some p => not_to_be_pushed repo p
   | None => false
   end || search_stop (commit_msg repo c)).
Proof.
  destruct c as [s [p|]]; simpl; [destruct (not_to_be_pushed repo p)|];
    reflexivity.
Qed.

Lemma gh_branch_eq repo c :
  gh_branch repo c =
  if not_to_be_pushed repo c then Ok None
  else match findall (commit_msg repo c) with
       | [] => match parent c with
               | Some p => gh_branch repo p
               | None => Ok None
               end
       | [m] => Ok (Some m)
       | _ => Err (MultipleLines (sha c))
       end.
Proof. destruct c; reflexivity. Qed.

(** The flag is set exactly when the commit or one of its ancestors has
    the accepted marker in its message. *)
Lemma not_to_be_pushed_ancestry repo c :
  not_to_be_pushed repo c = true <->
  exists a, In a (ancestry c) /\ search_stop (commit_msg repo a) = true.
Proof.
  induction c as [s|s p IH] using Commit_ind.
  - rewrite not_to_be_pushed_eq; simpl. split.
    + intros H. exists (mkCommit s None). auto.
    + intros (a & [<-|[]] & H). exact H.
  - rewrite not_to_be_pushed_eq. cbn [parent ancestry].
    rewrite orb_true_iff, IH. split.
    + intros [(a & Ha & H)|H].
      * exists a. split; [right; exact Ha|exact H].
      * exists (mkCommit s (Some p)). split; [left; reflexivity|exact H].
    + intros (a & [<-|Ha] & H); [right; exact H|left; eauto].
Qed.

(** Once set, the flag stays set on every descendant. *)
Lemma not_to_be_pushed_descendant repo c d :
  In c (ancestry d) -> not_to_be_pushed repo c = true ->
  not_to_be_pushed repo d = true.
Proof.
  induction d as [s|s p IH] using Commit_ind; cbn [ancestry parent].
  - intros [<-|[]] H; exact H.
  - intros [<-|Hin] H; [exact H|].
    rewrite not_to_be_pushed_eq; cbn [parent]. rewrite (IH Hin H).
    reflexivity.
Qed.

(** ** C10 *)

(** C10: a commit that is marked non-pushable resolves to no label,
    whatever its message holds: the message is not searched for annotation
    lines, so neither several of them nor a single one has any effect. *)
Theorem non_pushable_resolves_to_none repo c :
  not_to_be_pushed repo c = true -> gh_branch repo c = Ok None.
Proof.
  intros H. rewrite gh_branch_eq, H. reflexivity.
Qed.

Lemma non_pushable_resolves_to_none_witness :
  not_to_be_pushed Examples.stop_then_two_lines Examples.b2 = true
  /\ List.length
       (annotation_lines (commit_msg Examples.stop_then_two_lines Examples.b2))
     = 2
  /\ gh_branch Examples.stop_then_two_lines Examples.b2 = Ok None.
Proof.
  split; [reflexivity|]. split; [reflexivity|].
  apply (non_pushable_resolves_to_none Examples.stop_then_two_lines).
  reflexivity.
Defined.

(** ** The pattern of [gh_branch], line by line *)

Lemma findall_from_unfold bol s :
  findall_from bol s =
  match (if bol then annotation_at s else None) with
  | Some (g, r) => g :: findall_from false r
  | None => match s with
            | EmptyString => []
            | String c s' => findall_from (is_newline c) s'
            end
  end.
Proof.
  funelim (findall_from bol s); try rewrite <- Heqcall;
    match goal with
    | E : (if _ then _ else _) = _ |- _ => rewrite E; reflexivity
    end.
Qed.

(** Away from the start of a line nothing matches before the next line. *)
Lemma findall_from_false s :
  findall_from false s =
  match snd (dot_star s) with
  | EmptyString => []
  | String _ s' => findall_from true s'
  end.
Proof.
  induction s as [|c s IH]; rewrite findall_from_unfold; simpl; [reflexivity|].
  destruct (is_newline c) eqn:E; simpl; [reflexivity|].
  rewrite IH. destruct (dot_star s); reflexivity.
Qed.

Lemma findall_from_true_no_keyword s :
  keyword s = None -> findall_from true s = findall_from false s.
Proof.
  intros H. rewrite (findall_from_unfold true), (findall_from_unfold false).
  unfold annotation_at. rewrite H. reflexivity.
Qed.

Lemma findall_from_true_keyword s k :
  keyword s = Some k ->
  findall_from true s =
  fst (dot_star (lstrip k)) :: findall_from false (snd (dot_star (lstrip k))).
Proof.
  intros H. rewrite (findall_from_unfold true).
  unfold annotation_at. rewrite H. destruct (dot_star (lstrip k)); reflexivity.
Qed.

(** What follows the first line is empty or starts with the newline. *)
Lemma dot_star_rest s :
  snd (dot_star s) = EmptyString
  \/ exists s', snd (dot_star s) = String newline s'.
Proof.
  induction s as [|c s IH]; simpl; [left; reflexivity|].
  destruct (is_newline c) eqn:E; simpl.
  - right. exists s. apply Ascii.eqb_eq in E. rewrite E. reflexivity.
  - destruct (dot_star s); exact IH.
Qed.

Lemma dot_star_length_lt s c s' :
  snd (dot_star s) = String c s' -> String.length s' < String.length s.
Proof.
  intros H. pose proof (dot_star_length s) as L. rewrite H in L. simpl in L. lia.
Qed.

Lemma split_dot_star s :
  split newline s =
  fst (dot_star s) ::
  match snd (dot_star s) with
  | EmptyString => []
  | String _ s' => split newline s'
  end.
Proof.
  induction s as [|c s IH]; simpl; [reflexivity|].
  fold (is_newline c). destruct (is_newline c) eqn:E; simpl; [reflexivity|].
  rewrite IH. destruct (dot_star s); reflexivity.
Qed.

Lemma literal_first_line p s :
  no_newline p = true ->
  literal p (fst (dot_star s)) =
  option_map (fun k => fst (dot_star k)) (literal p s).
Proof.
  revert s. induction p as [|a p IH]; intros s Hp; simpl; [reflexivity|].
  simpl in Hp. apply andb_true_iff in Hp as [Ha Hp].
  destruct s as [|b s]; simpl; [reflexivity|].
  destruct (is_newline b) eqn:Eb; simpl.
  - destruct (Ascii.eqb a b) eqn:Eab; [|reflexivity].
    apply Ascii.eqb_eq in Eab. subst b. rewrite Eb in Ha. discriminate.
  - destruct (dot_star s) as [g r] eqn:Es; simpl.
    destruct (Ascii.eqb a b); [|reflexivity].
    specialize (IH s Hp). rewrite Es in IH. exact IH.
Qed.

Lemma literal_rest p s k :
  no_newline p = true -> literal p s = Some k ->
  snd (dot_star k) = snd (dot_star s).
Proof.
  revert s. induction p as [|a p IH]; intros s Hp; simpl.
  - intros [= <-]. reflexivity.
  - simpl in Hp. apply andb_true_iff in Hp as [Ha Hp].
    destruct s as [|b s]; [discriminate|].
    destruct (Ascii.eqb a b) eqn:Eab; [|discriminate].
    apply Ascii.eqb_eq in Eab. subst b. intros H.
    simpl. apply negb_true_iff in Ha. rewrite Ha.
    rewrite (IH s Hp H). destruct (dot_star s); reflexivity.
Qed.

Lemma keyword_first_line s :
  keyword (fst (dot_star s)) = option_map (fun k => fst (dot_star k)) (keyword s).
Proof.
  unfold keyword.
  rewrite !literal_first_line by reflexivity.
  destruct (literal "git-pr-chain:" s); [reflexivity|].
  destruct (literal "GPC:" s); reflexivity.
Qed.

Lemma keyword_rest s k :
  keyword s = Some k -> snd (dot_star k) = snd (dot_star s).
Proof.
  unfold keyword.
  destruct (literal "git-pr-chain:" s) eqn:E.
  - intros [= <-]. eapply literal_rest; [|exact E]. reflexivity.
  - intros H. eapply literal_rest; [|exact H]. reflexivity.
Qed.

Lemma lstrip_blank_line s :
  lstrip (fst (dot_star s)) = EmptyString ->
  lstrip s = lstrip (snd (dot_star s)).
Proof.
  induction s as [|c s IH]; simpl; [reflexivity|].
  destruct (is_newline c) eqn:E; simpl; [reflexivity|].
  destruct (dot_star s) as [g r]; simpl in *.
  destruct (isspace c); [exact IH|discriminate].
Qed.

Lemma lstrip_in_line s :
  lstrip (fst (dot_star s)) <> EmptyString ->
  snd (dot_star (lstrip s)) = snd (dot_star s).
Proof.
  induction s as [|c s IH]; simpl; [reflexivity|].
  destruct (is_newline c) eqn:E; simpl; [intros H; contradiction H; reflexivity|].
  destruct (dot_star s) as [g r] eqn:Es; simpl in *.
  destruct (isspace c) eqn:Ec.
  - exact IH.
  - intros _. simpl. rewrite E, Es. reflexivity.
Qed.

Lemma rstrip_empty s :
  rstrip s = EmptyString -> lstrip s = EmptyString.
Proof.
  induction s as [|c s IH]; simpl; [reflexivity|].
  destruct (rstrip s); [|discriminate].
  destruct (isspace c); [intros _; apply IH; reflexivity|discriminate].
Qed.

Lemma truthy_strip v : truthy (strip v) = truthy (lstrip v).
Proof.
  unfold strip. destruct (lstrip v) as [|c r] eqn:E; [reflexivity|].
  assert (Hc : isspace c = false).
  { clear -E. induction v as [|a v IH]; simpl in E; [discriminate|].
    destruct (isspace a) eqn:Ea; [exact (IH E)|]. injection E as -> _. exact Ea. }
  simpl. rewrite Hc. destruct (rstrip r); reflexivity.
Qed.

Lemma blank_no_keyword l : lstrip l = EmptyString -> keyword l = None.
Proof.
  destruct l as [|c l]; [reflexivity|]. simpl.
  destruct (isspace c) eqn:Ec; [|discriminate]. intros _.
  unfold keyword. cbn [literal].
  destruct (Ascii.eqb "g" c) eqn:E1.
  { apply Ascii.eqb_eq in E1. subst c. discriminate. }
  destruct (Ascii.eqb "G" c) eqn:E2; [|reflexivity].
  apply Ascii.eqb_eq in E2. subst c. discriminate.
Qed.

Lemma findall_rest x :
  findall_from false (snd (dot_star x)) =
  match snd (dot_star x) with
  | EmptyString => []
  | String _ s' => findall_from true s'
  end.
Proof.
  rewrite findall_from_false.
  destruct (dot_star_rest x) as [E|(s' & E)]; rewrite E; reflexivity.
Qed.

Lemma carries_value_first_line s :
  carries_value (fst (dot_star s)) =
  match keyword s with
  | Some k => truthy (lstrip (fst (dot_star k)))
  | None => false
  end.
Proof.
  unfold carries_value, annotation_value. rewrite keyword_first_line.
  destruct (keyword s); simpl; [apply truthy_strip|reflexivity].
Qed.

Lemma truthy_false s : truthy s = false -> s = EmptyString.
Proof. destruct s; [reflexivity|discriminate]. Qed.

Lemma truthy_true s : truthy s = true -> s <> EmptyString.
Proof. destruct s; [discriminate|intros _ [=]]. Qed.

Lemma lstrip_newline s : lstrip (String newline s) = lstrip s.
Proof. reflexivity. Qed.

Lemma findall_counts_valued_lines n :
  forall s, String.length s <= n ->
    List.length (filter carries_value (lines s))
    <= List.length (findall_from true s)
    /\ List.length (filter carries_value (lines s))
       <= S (List.length (findall_from false (snd (dot_star (lstrip s))))).
Proof.
  induction n as [n IH] using lt_wf_ind. intros s Hn.
  assert (IHs : forall c s', snd (dot_star s) = String c s' ->
            List.length (filter carries_value (lines s'))
            <= List.length (findall_from true s')
            /\ List.length (filter carries_value (lines s'))
               <= S (List.length (findall_from false (snd (dot_star (lstrip s')))))).
  { intros c s' E. apply dot_star_length_lt in E.
    apply (IH (String.length s')); lia. }
  unfold lines in *. rewrite split_dot_star.
  cbn [filter]. rewrite carries_value_first_line.
  split.
  - destruct (keyword s) as [k|] eqn:Ek.
    + rewrite (findall_from_true_keyword _ _ Ek). cbn [List.length filter].
      pose proof (keyword_rest _ _ Ek) as Er.
      destruct (truthy (lstrip (fst (dot_star k)))) eqn:Ev.
      * apply truthy_true in Ev.
        rewrite (lstrip_in_line _ Ev), Er, findall_rest.
        destruct (dot_star_rest s) as [E|(s' & E)]; rewrite E; cbn [List.length filter];
          [lia|].
        destruct (IHs _ _ E). lia.
      * apply truthy_false in Ev.
        rewrite (lstrip_blank_line _ Ev), Er.
        destruct (dot_star_rest s) as [E|(s' & E)]; rewrite E;
          [cbn [List.length filter]; lia|].
        rewrite lstrip_newline. destruct (IHs _ _ E). lia.
    + rewrite (findall_from_true_no_keyword _ Ek), findall_from_false.
      destruct (dot_star_rest s) as [E|(s' & E)]; rewrite E; cbn [List.length filter];
        [lia|].
      destruct (IHs _ _ E). lia.
  - destruct (lstrip (fst (dot_star s))) as [|a v] eqn:El.
    + assert (Ek : keyword (fst (dot_star s)) = None)
        by (apply blank_no_keyword; exact El).
      rewrite keyword_first_line in Ek.
      destruct (keyword s); [discriminate|].
      rewrite (lstrip_blank_line _ El).
      destruct (dot_star_rest s) as [E|(s' & E)]; rewrite E;
        [cbn [List.length filter]; lia|].
      rewrite lstrip_newline. destruct (IHs _ _ E). lia.
    + assert (Hne : lstrip (fst (dot_star s)) <> EmptyString)
        by (rewrite El; intros [=]).
      rewrite (lstrip_in_line _ Hne), findall_rest.
      destruct (dot_star_rest s) as [E|(s' & E)]; rewrite E.
      * destruct (match keyword s with Some k => _ | None => false end);
          cbn [List.length filter]; lia.
      * destruct (IHs _ _ E).
        destruct (match keyword s with Some k => _ | None => false end);
          cbn [List.length filter]; lia.
Qed.

Lemma no_annotation_no_match n :
  forall s, String.length s <= n ->
    annotation_lines s = [] -> findall_from true s = [].
Proof.
  induction n as [n IH] using lt_wf_ind. intros s Hn.
  unfold annotation_lines, lines. rewrite split_dot_star. cbn [filter].
  unfold is_annotation_line. rewrite keyword_first_line.
  destruct (keyword s) as [k|] eqn:Ek; simpl; [discriminate|].
  rewrite (findall_from_true_no_keyword _ Ek), findall_from_false.
  destruct (snd (dot_star s)) as [|c s'] eqn:E; [reflexivity|].
  apply dot_star_length_lt in E. intros H.
  apply (IH (String.length s')); [lia|lia|exact H].
Qed.

(** A message without annotation lines gives [findall] nothing. *)
Lemma findall_no_annotation msg :
  annotation_lines msg = [] -> findall msg = [].
Proof. apply (no_annotation_no_match (String.length msg)). lia. Qed.

(** Every annotation line that carries a value starts or ends a match of
    its own. *)
Lemma findall_valued_lines msg :
  List.length (filter carries_value (lines msg)) <= List.length (findall msg).
Proof.
  apply (findall_counts_valued_lines (String.length msg)). lia.
Qed.

(** ** C1 *)

(** With no annotation line on a commit or any of its ancestors, the
    commit resolves to no label. *)
Lemma unannotated_ancestry_none repo c :
  (forall a, In a (ancestry c) -> annotation_lines (commit_msg repo a) = []) ->
  gh_branch repo c = Ok None.
Proof.
  induction c as [s|s p IH] using Commit_ind; intros H; rewrite gh_branch_eq;
    destruct (not_to_be_pushed repo _); try reflexivity;
    rewrite (findall_no_annotation _ (H _ (or_introl eq_refl)));
    cbn [parent]; [reflexivity|].
  apply IH. intros a Ha. apply H. right. exact Ha.
Qed.

Lemma ancestry_root c : In (root c) (ancestry c).
Proof.
  induction c as [s|s p IH] using Commit_ind; cbn [root ancestry parent].
  - left. reflexivity.
  - right. exact IH.
Qed.

Lemma ancestry_trans a b c :
  In a (ancestry b) -> In b (ancestry c) -> In a (ancestry c).
Proof.
  induction c as [s|s p IH] using Commit_ind; cbn [ancestry parent].
  - intros Ha [<-|[]]. exact Ha.
  - intros Ha [<-|Hb]; [exact Ha|]. right. apply IH; assumption.
Qed.

(** C1 (amended): a commit without an annotation line that is not marked
    non-pushable resolves to what its parent resolves to, and to no label
    when it has no parent; marked non-pushable it resolves to no label; a
    root without an annotation line resolves to no label; and when neither
    the commit nor any of its ancestors has an annotation line, it
    resolves to the label of the root of its chain, which is none. *)
Theorem unannotated_commit_inherits repo c :
  annotation_lines (commit_msg repo c) = [] ->
  (not_to_be_pushed repo c = false ->
   gh_branch repo c = match parent c with
                      | Some p => gh_branch repo p
                      | None => Ok None
                      end)
  /\ (not_to_be_pushed repo c = true -> gh_branch repo c = Ok None)
  /\ (parent c = None -> gh_branch repo c = Ok None)
  /\ ((forall a, In a (ancestry c) ->
                 annotation_lines (commit_msg repo a) = []) ->
      gh_branch repo c = gh_branch repo (root c)
      /\ gh_branch repo c = Ok None).
Proof.
  intros Hc. repeat split.
  - intros Hp. rewrite gh_branch_eq, Hp, (findall_no_annotation _ Hc).
    reflexivity.
  - intros Hp. rewrite gh_branch_eq, Hp. reflexivity.
  - intros Hroot. rewrite gh_branch_eq, (findall_no_annotation _ Hc), Hroot.
    destruct (not_to_be_pushed repo c); reflexivity.
  - rewrite (unannotated_ancestry_none repo c H).
    symmetry. apply unannotated_ancestry_none.
    intros a Ha. apply H. eapply ancestry_trans; [exact Ha|apply ancestry_root].
  - apply unannotated_ancestry_none. exact H.
Qed.

Lemma unannotated_commit_inherits_witness :
  annotation_lines (commit_msg Examples.scenario Examples.c3) = []
  /\ gh_branch Examples.scenario Examples.c3
     = gh_branch Examples.scenario Examples.b2
  /\ gh_branch Examples.scenario Examples.c3 = Ok (Some "feat-x")
  /\ gh_branch Examples.scenario Examples.a1 = Ok None.
Proof.
  split; [reflexivity|]. split; [|split].
  - apply (proj1 (unannotated_commit_inherits Examples.scenario Examples.c3
                    eq_refl)).
    reflexivity.
  - reflexivity.
  - apply (proj1 (proj2 (proj2 (unannotated_commit_inherits
                                  Examples.scenario Examples.a1 eq_refl)))).
    reflexivity.
Defined.

(** C1, as stated, fails: the child has no annotation line (its marker is
    on an indented line), its parent resolves to [feat-x], and the child
    resolves to no label. *)
Lemma unannotated_commit_not_inheriting :
  annotation_lines (commit_msg Examples.indented_stop Examples.b2) = []
  /\ parent Examples.b2 = Some Examples.a1
  /\ gh_branch Examples.indented_stop Examples.a1 = Ok (Some "feat-x")
  /\ gh_branch Examples.indented_stop Examples.b2 = Ok None.
Proof. repeat split. Qed.

(** ** C5 *)

(** C5 (amended): a commit that is not marked non-pushable and whose
    message has two or more annotation lines that carry a value makes the
    label resolution fail, naming the commit. *)
Theorem multiple_annotation_lines_fatal repo c :
  not_to_be_pushed repo c = false ->
  2 <= List.length (filter carries_value (lines (commit_msg repo c))) ->
  gh_branch repo c = Err (MultipleLines (sha c)).
Proof.
  intros Hp H2. rewrite gh_branch_eq, Hp.
  pose proof (findall_valued_lines (commit_msg repo c)) as Hf.
  destruct (findall (commit_msg repo c)) as [|m [|m' ms]]; simpl in Hf;
    [lia|lia|reflexivity].
Qed.

Lemma multiple_annotation_lines_fatal_witness :
  not_to_be_pushed Examples.two_lines Examples.a1 = false
  /\ 2 <= List.length
            (filter carries_value (lines (commit_msg Examples.two_lines Examples.a1)))
  /\ gh_branch Examples.two_lines Examples.a1 = Err (MultipleLines "a1").
Proof.
  split; [reflexivity|]. split; [apply le_n|].
  apply (multiple_annotation_lines_fatal Examples.two_lines Examples.a1).
  - reflexivity.
  - apply le_n.
Defined.

(** C5, as stated, fails: the message has two annotation lines, and the
    commit, whose parent carries the accepted marker, resolves to no label
    without a failure. *)
Lemma multiple_annotation_lines_not_fatal :
  List.length
    (annotation_lines (commit_msg Examples.stop_then_two_lines Examples.b2)) = 2
  /\ gh_branch Examples.stop_then_two_lines Examples.b2 = Ok None.
Proof. split; reflexivity. Qed.

(** The white space after a colon runs over the end of its line: an
    annotation line without a value takes the next line as its value. *)
Lemma blank_value_takes_next_line :
  List.length (annotation_lines (commit_msg Examples.blank_first_line Examples.a1))
  = 2
  /\ gh_branch Examples.blank_first_line Examples.a1 = Ok (Some "GPC: feat-b").
Proof. split; reflexivity. Qed.

(** ** C4 *)

(** The accepted marker on a commit marks it and all its descendants, and
    all of them resolve to no label. *)
Lemma accepted_marker_propagates repo c d :
  search_stop (commit_msg repo c) = true -> In c (ancestry d) ->
  not_to_be_pushed repo d = true /\ gh_branch repo d = Ok None.
Proof.
  intros Hs Hin.
  assert (H : not_to_be_pushed repo d = true).
  { apply not_to_be_pushed_ancestry. exists c. split; assumption. }
  split; [exact H|]. rewrite gh_branch_eq, H. reflexivity.
Qed.

(** C4: where it fails.  The second commit has the annotation line
    [GPC: STOP]; neither it nor its descendant is marked, it resolves to the
    label [STOP], and both are pushed. *)
Theorem documented_stop_marker_is_a_label :
  In "GPC: STOP" (annotation_lines (commit_msg Examples.stop_plain Examples.b2))
  /\ annotation_value "GPC: STOP" = Some "STOP"
  /\ not_to_be_pushed Examples.stop_plain Examples.b2 = false
  /\ not_to_be_pushed Examples.stop_plain Examples.c3 = false
  /\ gh_branch Examples.stop_plain Examples.b2 = Ok (Some "STOP")
  /\ gh_branch Examples.stop_plain Examples.c3 = Ok (Some "feat-z")
  /\ push_branches Examples.stop_plain false (Some "") "origin/main" Examples.three_log
     = Ok [ForcePush "origin" "a1" "feat-x";
           ForcePush "origin" "b2" "STOP";
           ForcePush "origin" "c3" "feat-z"].
Proof.
  split; [vm_compute; left; reflexivity|]. repeat split.
Qed.

(** ** Runs of labels and the counter *)

Lemma label_eqb_eq a b : label_eqb a b = true <-> a = b.
Proof.
  destruct a as [x|], b as [y|]; simpl; try (split; [discriminate|intros [=]]).
  - rewrite String.eqb_eq. split; [intros ->; reflexivity|intros [= ->]; reflexivity].
  - split; reflexivity.
Qed.

Lemma label_eqb_refl a : label_eqb a a = true.
Proof. apply label_eqb_eq. reflexivity. Qed.

Lemma label_eqb_neq a b : label_eqb a b = false <-> a <> b.
Proof.
  rewrite <- label_eqb_eq. destruct (label_eqb a b); split; congruence.
Qed.

Lemma groupby_keys {A} (l : list (option string * A)) :
  map fst (groupby l) = run_keys (map fst l).
Proof.
  induction l as [|[k x] l IH]; [reflexivity|]. cbn [groupby map fst run_keys].
  rewrite <- IH. destruct (groupby l) as [|[k' g] rest]; [reflexivity|].
  cbn [map fst]. destruct (label_eqb k k'); reflexivity.
Qed.

Lemma combine_keys {A B} (ks : list A) (xs : list B) :
  List.length ks = List.length xs -> map fst (combine ks xs) = ks.
Proof.
  revert xs. induction ks as [|k ks IH]; intros [|x xs]; simpl; try discriminate;
    [reflexivity|]. intros [= H]. rewrite (IH _ H). reflexivity.
Qed.

(** The keys of the runs start with the first label. *)
Lemma run_keys_cons k l : exists rest, run_keys (k :: l) = k :: rest.
Proof.
  cbn [run_keys]. destruct (run_keys l) as [|k' rest]; [eexists; reflexivity|].
  destruct (label_eqb k k'); eexists; reflexivity.
Qed.

Lemma run_keys_step k y l :
  run_keys (k :: y :: l) =
  if label_eqb k y then run_keys (y :: l) else k :: run_keys (y :: l).
Proof.
  destruct (run_keys_cons y l) as (rest & E).
  change (run_keys (k :: y :: l)) with
    (match run_keys (y :: l) with
     | k' :: rest => if label_eqb k k' then k :: rest else k :: k' :: rest
     | [] => [k]
     end).
  rewrite E. destruct (label_eqb k y) eqn:Ek; [|reflexivity].
  apply label_eqb_eq in Ek. subst. reflexivity.
Qed.

Lemma In_run_keys k l : In k (run_keys l) <-> In k l.
Proof.
  induction l as [|x [|y l] IH]; [reflexivity|reflexivity|].
  rewrite run_keys_step. destruct (label_eqb x y) eqn:E.
  - apply label_eqb_eq in E. subst y. rewrite IH. simpl. tauto.
  - cbn [In] in *. rewrite IH. tauto.
Qed.

Lemma run_count_cons_le k x l : run_count k l <= run_count k (x :: l).
Proof.
  unfold run_count. destruct l as [|y l]; [simpl; lia|].
  rewrite run_keys_step. destruct (label_eqb x y); [lia|].
  cbn [filter]. destruct (label_eqb k x); simpl; lia.
Qed.

Lemma run_count_app_le k l1 l : run_count k l <= run_count k (l1 ++ l).
Proof.
  induction l1 as [|x l1 IH]; simpl; [lia|].
  etransitivity; [exact IH|apply run_count_cons_le].
Qed.

Lemma run_count_pos k l : In k l -> 1 <= run_count k l.
Proof.
  intros H. apply In_run_keys in H. unfold run_count.
  induction (run_keys l) as [|x r IH]; [destruct H|].
  cbn [filter]. destruct (label_eqb k x) eqn:E; simpl; [lia|].
  destruct H as [->|H]; [rewrite label_eqb_refl in E; discriminate|].
  apply IH, H.
Qed.

Lemma run_count_In k l : 1 <= run_count k l -> In k l.
Proof.
  intros H. apply In_run_keys. unfold run_count in H.
  induction (run_keys l) as [|x r IH]; [simpl in H; lia|].
  cbn [filter] in H. destruct (label_eqb k x) eqn:E.
  - apply label_eqb_eq in E. left. symmetry. exact E.
  - right. apply IH, H.
Qed.

(** A label is the key of two runs or more exactly when it reappears after
    a different label. *)
Lemma run_count_reappears k l : 2 <= run_count k l <-> reappears k l.
Proof.
  split.
  - induction l as [|x [|y l] IH]; [unfold run_count; simpl; lia| |].
    + unfold run_count; simpl. destruct (label_eqb k x); simpl; lia.
    + unfold run_count in *. rewrite run_keys_step.
      destruct (label_eqb x y) eqn:Exy.
      * intros H. destruct (IH H) as (l1 & l2 & z & l3 & E & Hz & Hin).
        exists (x :: l1), l2, z, l3. rewrite E. auto.
      * cbn [filter]. destruct (label_eqb k x) eqn:Ekx.
        -- apply label_eqb_eq in Ekx. subst x. cbn [List.length]. intros H.
           assert (Hin : In k (y :: l)) by (apply run_count_In; unfold run_count; lia).
           apply label_eqb_neq in Exy.
           destruct Hin as [->|Hin]; [contradiction Exy; reflexivity|].
           exists [], [], y, l. repeat split; auto.
        -- intros H. destruct (IH H) as (l1 & l2 & z & l3 & E & Hz & Hin).
           exists (x :: l1), l2, z, l3. rewrite E. auto.
  - intros (l1 & l2 & z & l3 & -> & Hz & Hin).
    etransitivity; [|apply run_count_app_le]. clear l1.
    induction l2 as [|y l2 IH].
    + cbn [app]. unfold run_count. rewrite run_keys_step.
      assert (E : label_eqb k z = false) by (apply label_eqb_neq; congruence).
      rewrite E. cbn [filter]. rewrite label_eqb_refl. cbn [List.length].
      assert (1 <= run_count k (z :: l3)) by (apply run_count_pos; right; exact Hin).
      unfold run_count in *. lia.
    + cbn [app]. unfold run_count in *. rewrite run_keys_step.
      destruct (label_eqb k y) eqn:E.
      * apply label_eqb_eq in E. subst y. exact IH.
      * cbn [filter]. rewrite label_eqb_refl. cbn [List.length].
        assert (1 <= run_count k (y :: l2 ++ z :: l3)).
        { apply run_count_pos. right. apply in_or_app. right. right. exact Hin. }
        unfold run_count in *. lia.
Qed.

Lemma counter_get_incr ctr b' b :
  counter_get (counter_incr ctr b') b =
  counter_get ctr b + (if String.eqb b b' then 1 else 0).
Proof.
  unfold counter_get. induction ctr as [|[k n] ctr IH]; cbn [counter_incr find fst snd].
  - rewrite (String.eqb_sym b' b). destruct (String.eqb b b'); reflexivity.
  - destruct (String.eqb k b') eqn:Ekb'; cbn [find fst snd].
    + apply String.eqb_eq in Ekb'. subst b'. rewrite (String.eqb_sym b k).
      destruct (String.eqb k b); cbn [snd]; lia.
    + destruct (String.eqb k b) eqn:Ekb; [|exact IH].
      apply String.eqb_eq in Ekb. subst k. rewrite Ekb'. cbn [snd]. lia.
Qed.

Lemma counter_keys_incr ctr b k :
  In k (map fst (counter_incr ctr b)) <-> k = b \/ In k (map fst ctr).
Proof.
  induction ctr as [|[k' n] ctr IH]; cbn [counter_incr map fst In].
  - intuition congruence.
  - destruct (String.eqb k' b) eqn:E; cbn [map fst In].
    + apply String.eqb_eq in E. subst. intuition congruence.
    + rewrite IH. tauto.
Qed.

Lemma counter_keys_nodup ctr b :
  NoDup (map fst ctr) -> NoDup (map fst (counter_incr ctr b)).
Proof.
  induction ctr as [|[k n] ctr IH]; cbn [counter_incr map fst]; intros H.
  - constructor; [intros []|constructor].
  - inversion H as [|? ? Hk Hr]; subst.
    destruct (String.eqb k b) eqn:E; cbn [map fst].
    + constructor; assumption.
    + constructor; [|apply IH, Hr].
      rewrite counter_keys_incr. intros [->|Hin]; [|contradiction].
      rewrite String.eqb_refl in E. discriminate.
Qed.

Lemma Counter_get_aux l ctr b :
  counter_get (fold_left counter_incr l ctr) b = counter_get ctr b + occurrences b l.
Proof.
  revert ctr. induction l as [|x l IH]; intros ctr; cbn [fold_left].
  - unfold occurrences. simpl. lia.
  - rewrite IH, counter_get_incr. unfold occurrences. cbn [filter].
    destruct (String.eqb b x); simpl; lia.
Qed.

Lemma Counter_get l b : counter_get (Counter l) b = occurrences b l.
Proof. unfold Counter. rewrite Counter_get_aux. reflexivity. Qed.

Lemma Counter_nodup l : NoDup (map fst (Counter l)).
Proof.
  unfold Counter. assert (H : NoDup (map fst (@nil (string * nat)))) by constructor.
  revert H. generalize (@nil (string * nat)).
  induction l as [|x l IH]; intros ctr H; cbn [fold_left]; [exact H|].
  apply IH, counter_keys_nodup, H.
Qed.

Lemma counter_get_In ctr b n :
  NoDup (map fst ctr) -> In (b, n) ctr -> counter_get ctr b = n.
Proof.
  unfold counter_get.
  induction ctr as [|[k m] ctr IH]; cbn [map fst find snd]; intros Hnd; [intros []|].
  inversion Hnd as [|? ? Hk Hr]; subst. intros [[= -> ->]|Hin].
  - rewrite String.eqb_refl. reflexivity.
  - destruct (String.eqb k b) eqn:E; [|exact (IH Hr Hin)].
    apply String.eqb_eq in E. subst k. contradiction Hk.
    change b with (fst (b, n)). apply in_map, Hin.
Qed.

Lemma counter_In_get ctr b :
  1 <= counter_get ctr b -> In (b, counter_get ctr b) ctr.
Proof.
  unfold counter_get. destruct (find _ ctr) as [[k n]|] eqn:E; [|simpl; lia].
  intros _. apply find_some in E as [Hin Hk]. cbn [fst snd] in *.
  apply String.eqb_eq in Hk. subst k. exact Hin.
Qed.

(** The branches reported: those counted more than once. *)
Lemma repeated_branches_iff l b :
  In b (map fst (filter (fun bc => (1 <? snd bc)%nat) (Counter l)))
  <-> 2 <= occurrences b l.
Proof.
  rewrite <- Counter_get. split.
  - intros H. apply in_map_iff in H as ([k n] & <- & H).
    apply filter_In in H as [Hin Hn]. cbn [fst snd] in *.
    rewrite (counter_get_In _ _ _ (Counter_nodup l) Hin).
    apply Nat.ltb_lt in Hn. lia.
  - intros H. apply in_map_iff. exists (b, counter_get (Counter l) b).
    split; [reflexivity|]. apply filter_In. split.
    + apply counter_In_get. lia.
    + apply Nat.ltb_lt. simpl. lia.
Qed.

Lemma truthy_keys_occurrences {A} (groups : list (option string * A)) b :
  occurrences b (truthy_keys groups) =
  if truthy b then List.length (filter (label_eqb (Some b)) (map fst groups))
  else 0.
Proof.
  unfold occurrences, truthy_keys.
  induction groups as [|[k g] groups IH]; cbn [flat_map map fst filter].
  - destruct (truthy b); reflexivity.
  - rewrite filter_app, length_app, IH. clear IH.
    destruct k as [k|]; cbn [label_eqb].
    + destruct (truthy k) eqn:Ek; cbn [filter].
      * destruct (String.eqb b k) eqn:E; cbn [List.length].
        -- apply String.eqb_eq in E. subst k. rewrite Ek. reflexivity.
        -- destruct (truthy b); reflexivity.
      * destruct (String.eqb b k) eqn:E; cbn [List.length].
        -- apply String.eqb_eq in E. subst k. rewrite Ek. reflexivity.
        -- destruct (truthy b); reflexivity.
    + destruct (truthy b); reflexivity.
Qed.

Lemma truthy_iff b : truthy b = true <-> b <> EmptyString.
Proof. destruct b; simpl; split; congruence. Qed.

(** What the second check reports, in terms of the labels. *)
Lemma repeated_branches_reappear (commits : list Commit)
  (labels : list (option string)) (b : string) :
  List.length labels = List.length commits ->
  In b (map fst (filter (fun bc => (1 <? snd bc)%nat)
                        (Counter (truthy_keys (groupby (combine labels commits))))))
  <-> b <> EmptyString /\ reappears (Some b) labels.
Proof.
  intros Hlen. rewrite repeated_branches_iff, truthy_keys_occurrences.
  rewrite (groupby_keys (combine labels commits)), (combine_keys _ _ Hlen).
  rewrite <- truthy_iff, <- run_count_reappears. unfold run_count.
  destruct (truthy b); split; try lia; try tauto.
Qed.

(** ** Merge commits and the shape of the validation *)

Lemma no_newline_app a b :
  no_newline (a ++ b) = no_newline a && no_newline b.
Proof.
  induction a as [|c a IH]; simpl; [reflexivity|].
  rewrite IH, andb_assoc. reflexivity.
Qed.

Lemma no_newline_join ps :
  forallb no_newline ps = true -> no_newline (join " " ps) = true.
Proof.
  induction ps as [|p ps IH]; [reflexivity|].
  intros H. cbn [forallb] in H. apply andb_true_iff in H as [Hp Hps].
  destruct ps as [|q ps]; [exact Hp|].
  change (join " " (p :: q :: ps)) with (p ++ " " ++ join " " (q :: ps)).
  rewrite !no_newline_app, Hp, (IH Hps). reflexivity.
Qed.

Lemma no_newline_lstrip s : no_newline s = true -> no_newline (lstrip s) = true.
Proof.
  induction s as [|c s IH]; simpl; [reflexivity|].
  intros H. destruct (isspace c); [|exact H].
  apply andb_true_iff in H as [_ H]. exact (IH H).
Qed.

Lemma no_newline_rstrip s : no_newline s = true -> no_newline (rstrip s) = true.
Proof.
  induction s as [|c s IH]; simpl; [reflexivity|].
  intros H. apply andb_true_iff in H as [Hc H]. specialize (IH H).
  destruct (rstrip s) as [|d r].
  - destruct (isspace c); simpl; [reflexivity|]. rewrite Hc. reflexivity.
  - simpl in *. rewrite Hc. exact IH.
Qed.

Lemma rstrip_app_nl s : rstrip (s ++ nl) = rstrip s.
Proof.
  induction s as [|c s IH]; simpl; [reflexivity|]. rewrite IH. reflexivity.
Qed.

Lemma lstrip_app_nl s :
  lstrip (s ++ nl) =
  match lstrip s with
  | EmptyString => EmptyString
  | r => r ++ nl
  end.
Proof.
  induction s as [|c s IH]; simpl; [reflexivity|].
  destruct (isspace c); [exact IH|reflexivity].
Qed.

(** The newline that ends git's output is stripped. *)
Lemma strip_app_nl s : strip (s ++ nl) = strip s.
Proof.
  unfold strip. rewrite lstrip_app_nl.
  destruct (lstrip s) as [|c r] eqn:E; [reflexivity|].
  change (String c r ++ nl) with (String c r ++ nl).
  apply (rstrip_app_nl (String c r)).
Qed.

Lemma split_no_newline s : no_newline s = true -> split newline s = [s].
Proof.
  induction s as [|c s IH]; simpl; [reflexivity|].
  intros H. apply andb_true_iff in H as [Hc H]. apply negb_true_iff in Hc.
  unfold is_newline in Hc. rewrite Hc, (IH H). reflexivity.
Qed.

(** Hashes hold no newline, so the output for [%P] is one line, and one
    line splits into one piece: no commit is taken for a merge. *)
Lemma is_merge_commit_false repo c :
  forallb no_newline (parents repo (sha c)) = true ->
  is_merge_commit repo c = false.
Proof.
  intros H. unfold is_merge_commit, git_show_P, show_P.
  rewrite strip_app_nl, split_no_newline; [reflexivity|].
  unfold strip. apply no_newline_rstrip, no_newline_lstrip, no_newline_join.
  exact H.
Qed.

Lemma filter_nil_forall {A} (f : A -> bool) l :
  (forall x, In x l -> f x = false) -> filter f l = [].
Proof.
  induction l as [|x l IH]; simpl; [reflexivity|]. intros H.
  rewrite (H x (or_introl eq_refl)). apply IH. intros y Hy. apply H. right. exact Hy.
Qed.

Lemma no_merge_commit_detected repo commits :
  (forall c, In c commits -> forallb no_newline (parents repo (sha c)) = true) ->
  filter (is_merge_commit repo) commits = [].
Proof.
  intros H. apply filter_nil_forall. intros c Hc.
  apply is_merge_commit_false, H, Hc.
Qed.

Lemma validate_branch_commits_eq repo commits :
  validate_branch_commits repo commits =
  if nonempty (filter (is_merge_commit repo) commits)
  then Err (MergeCommits (filter (is_merge_commit repo) commits))
  else labels <- mapM (gh_branch repo) commits ;; validate_labels commits labels.
Proof.
  unfold validate_branch_commits, validate_labels.
  destruct (nonempty (filter _ commits)); [reflexivity|].
  destruct (mapM (gh_branch repo) commits) as [labels|e]; [|reflexivity].
  cbn [bind drain pending fst snd slice_1_m1 tl removelast filter map concat nonempty].
  destruct (nonempty _); reflexivity.
Qed.

Lemma mapM_error {C A B} (f : A -> result C B) l e :
  mapM f l = Err e -> exists x, In x l /\ f x = Err e.
Proof.
  induction l as [|x l IH]; cbn [mapM]; [discriminate|].
  destruct (f x) as [y|e'] eqn:E; cbn [bind].
  - destruct (mapM f l) as [ys|e'']; cbn [bind]; [discriminate|].
    intros [= ->]. destruct (IH eq_refl) as (z & Hz & Ez).
    exists z. split; [right; exact Hz|exact Ez].
  - intros [= ->]. exists x. split; [left; reflexivity|exact E].
Qed.

Lemma mapM_length {C A B} (f : A -> result C B) l ys :
  mapM f l = Ok ys -> List.length ys = List.length l.
Proof.
  revert ys. induction l as [|x l IH]; cbn [mapM]; intros ys.
  - intros [= <-]. reflexivity.
  - destruct (f x) as [y|e]; cbn [bind]; [|discriminate].
    destruct (mapM f l) as [zs|e]; cbn [bind]; [|discriminate].
    intros [= <-]. simpl. rewrite (IH zs eq_refl). reflexivity.
Qed.

(** The label resolution fails in one way only, and names a commit of the
    ancestry. *)
Lemma gh_branch_error repo c e :
  gh_branch repo c = Err e ->
  exists a, In a (ancestry c) /\ e = MultipleLines (sha a).
Proof.
  induction c as [s|s p IH] using Commit_ind; rewrite gh_branch_eq;
    destruct (not_to_be_pushed repo _); try discriminate;
    destruct (findall _) as [|m [|m' ms]]; try discriminate; cbn [parent sha].
  - intros [= <-]. eexists. split; [left; reflexivity|reflexivity].
  - intros H. destruct (IH H) as (a & Ha & ->).
    exists a. split; [right; exact Ha|reflexivity].
  - intros [= <-]. eexists. split; [left; reflexivity|reflexivity].
Qed.

Lemma validate_never_merge_error repo commits :
  (forall c, In c commits -> forallb no_newline (parents repo (sha c)) = true) ->
  forall merge_commits,
    validate_branch_commits repo commits <> Err (MergeCommits merge_commits).
Proof.
  intros H ms. rewrite validate_branch_commits_eq.
  rewrite (no_merge_commit_detected _ _ H). cbn [nonempty].
  destruct (mapM (gh_branch repo) commits) as [labels|e] eqn:E; cbn [bind].
  - unfold validate_labels. destruct (nonempty _); discriminate.
  - intros [= ->]. apply mapM_error in E as (c & _ & E).
    apply gh_branch_error in E as (a & _ & E). discriminate.
Qed.

(** The third check of the validation reads an iterator that the second
    check has read to its end: it finds nothing. *)
Lemma validate_never_no_branch_error repo commits cs :
  validate_branch_commits repo commits <> Err (NoBranchInferred cs).
Proof.
  rewrite validate_branch_commits_eq.
  destruct (nonempty _); [discriminate|].
  destruct (mapM (gh_branch repo) commits) as [labels|e] eqn:E; cbn [bind].
  - unfold validate_labels. destruct (nonempty _); discriminate.
  - intros [= ->]. apply mapM_error in E as (c & _ & E).
    apply gh_branch_error in E as (a & _ & E). discriminate.
Qed.

(** ** C2 *)

(** C2 (amended): the validation fails with the AABA error exactly when
    no merge commit is detected, every label resolves, and some label other
    than the empty string appears, is interrupted by a different label and
    appears again; the error lists exactly those labels. *)
Theorem aaba_iff_label_reappears repo commits :
  ((exists bs, validate_branch_commits repo commits = Err (AABA bs))
   <-> (filter (is_merge_commit repo) commits = []
        /\ exists labels, mapM (gh_branch repo) commits = Ok labels
             /\ exists b, b <> EmptyString /\ reappears (Some b) labels))
  /\ (forall bs labels,
        validate_branch_commits repo commits = Err (AABA bs) ->
        mapM (gh_branch repo) commits = Ok labels ->
        forall b, In b bs <-> b <> EmptyString /\ reappears (Some b) labels).
Proof.
  rewrite validate_branch_commits_eq.
  destruct (filter (is_merge_commit repo) commits) as [|m ms] eqn:Hm;
    cbn [nonempty].
  2: { split; [split|intros bs labels H; discriminate H].
       - intros (bs & H). discriminate H.
       - intros (H & _). discriminate H. }
  destruct (mapM (gh_branch repo) commits) as [labels|e] eqn:Hl; cbn [bind].
  2: { pose proof Hl as He. apply mapM_error in He as (c & _ & He).
       apply gh_branch_error in He as (a & _ & ->).
       split; [split|intros bs labels H; discriminate H].
       - intros (bs & H). discriminate H.
       - intros (_ & labels & H & _). discriminate H. }
  unfold validate_labels.
  pose proof (repeated_branches_reappear commits labels) as Hr.
  specialize (fun b => Hr b (mapM_length _ _ _ Hl)).
  destruct (map fst _) as [|b0 bs0]; cbn [nonempty].
  - split; [split|intros bs labels' H; discriminate H].
    + intros (bs & H). discriminate H.
    + intros (_ & labels' & [= <-] & b & Hb). apply Hr in Hb. destruct Hb.
  - split; [split|].
    + intros _. split; [reflexivity|]. exists labels. split; [reflexivity|].
      exists b0. apply Hr. left. reflexivity.
    + intros _. eexists. reflexivity.
    + intros bs labels' [= <-] [= <-]. exact Hr.
Qed.

Lemma aaba_iff_label_reappears_witness :
  mapM (gh_branch Examples.aaba) [Examples.a1; Examples.b2; Examples.c3]
  = Ok [Some "x"; Some "y"; Some "x"]
  /\ exists bs,
       validate_branch_commits Examples.aaba [Examples.a1; Examples.b2; Examples.c3]
       = Err (AABA bs).
Proof.
  split; [reflexivity|].
  apply (proj1 (aaba_iff_label_reappears Examples.aaba
                  [Examples.a1; Examples.b2; Examples.c3])).
  split; [reflexivity|].
  exists [Some "x"; Some "y"; Some "x"]. split; [reflexivity|].
  exists "x". split; [discriminate|].
  exists [], [], (Some "y"), [Some "x"].
  split; [reflexivity|]. split; [discriminate|]. left. reflexivity.
Defined.

(** C2, as stated, fails: the empty label is a label, it appears, is
    interrupted by [y] and appears again, and the validation passes. *)
Lemma empty_label_reappears_unreported :
  mapM (gh_branch Examples.empty_label) [Examples.a1; Examples.b2; Examples.c3]
  = Ok [Some ""; Some "y"; Some ""]
  /\ reappears (Some "") [Some ""; Some "y"; Some ""]
  /\ validate_branch_commits Examples.empty_label
       [Examples.a1; Examples.b2; Examples.c3] = Ok tt.
Proof.
  split; [reflexivity|]. split; [|reflexivity].
  exists [], [], (Some "y"), [Some ""].
  split; [reflexivity|]. split; [discriminate|]. left. reflexivity.
Qed.

(** ** C3 *)

(** C3: where it fails.  The second commit has two parents in the
    repository; it is not taken for a merge commit, and the validation and
    [branch_commits] pass. *)
Theorem merge_commit_not_detected :
  parents Examples.with_merge "b2" = ["a1"; "2e"]
  /\ is_merge_commit Examples.with_merge Examples.b2 = false
  /\ validate_branch_commits Examples.with_merge [Examples.a1; Examples.b2] = Ok tt
  /\ branch_commits Examples.with_merge "origin/main" ["a1"; "b2"]
     = Ok [Examples.a1; Examples.b2].
Proof. repeat split. Qed.

(** ** Chains built from the log *)

Lemma ancestry_self c : In c (ancestry c).
Proof. destruct c; left; reflexivity. Qed.

(** Every commit of the chain descends from the commit the chain was
    started on. *)
Lemma chain_from_last l log d :
  In d (chain_from (Some l) log) -> In l (ancestry d).
Proof.
  revert l. induction log as [|sha log IH]; intros l; cbn [chain_from];
    [intros []|].
  destruct (truthy sha); [|apply IH].
  intros [<-|Hd].
  - right. apply ancestry_self.
  - eapply ancestry_trans; [|apply (IH _ Hd)].
    right. apply ancestry_self.
Qed.

(** A commit of the chain is an ancestor of every later one, and the
    parent of the next one. *)
Lemma chain_from_later last log pre c post :
  chain_from last log = (pre ++ c :: post)%list ->
  forall d, In d post -> In c (ancestry d).
Proof.
  revert last pre. induction log as [|sha log IH]; intros last pre;
    cbn [chain_from].
  - destruct pre; discriminate.
  - destruct (truthy sha); [|apply IH].
    destruct pre as [|x pre]; cbn [app].
    + intros [= <- <-]. intros d. apply chain_from_last.
    + intros [= _ H]. exact (IH _ _ H).
Qed.

Lemma chain_from_head last log c post :
  chain_from last log = c :: post -> parent c = last.
Proof.
  induction log as [|sha log IH]; cbn [chain_from]; [discriminate|].
  destruct (truthy sha); [|exact IH]. intros [= <- _]. reflexivity.
Qed.

Lemma chain_from_next last log pre p c post :
  chain_from last log = (pre ++ p :: c :: post)%list ->
  parent c = Some p.
Proof.
  revert last pre. induction log as [|sha log IH]; intros last pre;
    cbn [chain_from].
  - destruct pre; discriminate.
  - destruct (truthy sha); [|apply IH].
    destruct pre as [|x pre]; cbn [app].
    + intros [= <- H]. exact (chain_from_head _ _ _ _ H).
    + intros [= _ H]. exact (IH _ _ H).
Qed.

Lemma mapM_split {C A B} (f : A -> result C B) l ys1 y ys2 :
  mapM f l = Ok (ys1 ++ y :: ys2)%list ->
  exists xs1 x xs2,
    l = (xs1 ++ x :: xs2)%list /\ List.length xs1 = List.length ys1
    /\ f x = Ok y /\ mapM f xs2 = Ok ys2.
Proof.
  revert l. induction ys1 as [|z ys1 IH]; intros [|x l]; cbn [mapM app];
    try discriminate.
  - destruct (f x) as [y'|e] eqn:E; cbn [bind]; [|discriminate].
    destruct (mapM f l) as [ys|e] eqn:El; cbn [bind]; [|discriminate].
    intros [= -> ->]. exists [], x, l. repeat split; assumption.
  - destruct (f x) as [y'|e] eqn:E; cbn [bind]; [|discriminate].
    destruct (mapM f l) as [ys|e] eqn:El; cbn [bind]; [|discriminate].
    intros [= -> ->].
    destruct (IH l El) as (xs1 & x' & xs2 & -> & Hlen & Hx & Hxs).
    exists (x :: xs1), x', xs2. cbn [app List.length].
    repeat split; [congruence|assumption..].
Qed.

(** A commit that resolves to no label while its parent resolves to a
    label is marked non-pushable. *)
Lemma none_after_label_non_pushable repo c p b :
  parent c = Some p ->
  gh_branch repo p = Ok (Some b) -> gh_branch repo c = Ok None ->
  not_to_be_pushed repo c = true.
Proof.
  intros Hp Hb. rewrite gh_branch_eq, Hp.
  destruct (not_to_be_pushed repo c); [reflexivity|].
  destruct (findall _) as [|m [|m' ms]]; [congruence|discriminate..].
Qed.

(** On a chain built from the log, no run of commits without a label lies
    between two labelled runs: the third check of the validation guards
    against labels that the resolution cannot produce. *)
Lemma chain_has_no_gap repo last log labels :
  mapM (gh_branch repo) (chain_from last log) = Ok labels ->
  ~ none_between labels.
Proof.
  intros Hl (l1 & a & n & b & l3 & E). subst labels.
  apply mapM_split in Hl as (xs1 & p & xs2 & Hc & _ & Hp & Hl).
  cbn [repeat app] in Hl.
  apply (mapM_split _ _ []) in Hl as (xs0 & c & xs3 & -> & Hlen & Hcn & Hl).
  destruct xs0; [|discriminate]. cbn [app] in Hc.
  apply mapM_split in Hl as (xs4 & d & xs5 & -> & _ & Hd & _).
  pose proof (chain_from_next _ _ _ _ _ _ Hc) as Hpar.
  pose proof (none_after_label_non_pushable _ _ _ _ Hpar Hp Hcn) as Hnp.
  assert (Hin : In c (ancestry d)).
  { apply (chain_from_later last log (xs1 ++ [p]) c (xs4 ++ d :: xs5)).
    - rewrite Hc, <- app_assoc. reflexivity.
    - apply in_or_app. right. left. reflexivity. }
  pose proof (not_to_be_pushed_descendant _ _ _ Hin Hnp) as Hdn.
  rewrite gh_branch_eq, Hdn in Hd. discriminate.
Qed.

(** A chain without annotation lines resolves to no label throughout. *)
Lemma chain_from_ancestry last log c a :
  In c (chain_from last log) -> In a (ancestry c) ->
  In a (chain_from last log)
  \/ exists l, last = Some l /\ In a (ancestry l).
Proof.
  revert last. induction log as [|sha log IH]; intros last; cbn [chain_from];
    [intros []|].
  destruct (truthy sha); [|apply IH].
  intros [<-|Hc] Ha.
  - cbn [ancestry parent] in Ha. destruct Ha as [<-|Ha]; [left; left; reflexivity|].
    destruct last as [l|]; [|destruct Ha]. right. exists l. auto.
  - destruct (IH _ Hc Ha) as [H|(l & [= <-] & H)]; [left; right; exact H|].
    cbn [ancestry parent] in H. destruct H as [<-|H]; [left; left; reflexivity|].
    destruct last as [l|]; [|destruct H]. right. exists l. auto.
Qed.

Lemma unannotated_chain_none repo log :
  (forall c, In c (chain_from None log) ->
             annotation_lines (commit_msg repo c) = []) ->
  forall c, In c (chain_from None log) -> gh_branch repo c = Ok None.
Proof.
  intros H c Hc. apply unannotated_ancestry_none. intros a Ha.
  destruct (chain_from_ancestry _ _ _ _ Hc Ha) as [Hin|(l & [=] & _)].
  apply H, Hin.
Qed.

(** ** C6 *)

(** C6: where it fails.  The labels are [feat-a], none, [feat-b]; the
    validation passes. *)
Theorem none_between_labels_accepted :
  mapM (gh_branch Examples.gap) Examples.gap_commits
  = Ok [Some "feat-a"; None; Some "feat-b"]
  /\ none_between [Some "feat-a"; None; Some "feat-b"]
  /\ validate_branch_commits Examples.gap Examples.gap_commits = Ok tt.
Proof.
  split; [reflexivity|]. split; [|reflexivity].
  exists [], "feat-a", 0, "feat-b", []. reflexivity.
Qed.

(** ** C7 *)

Lemma mapM_fails {C A B} (f : A -> result C B) l e :
  (forall x e', f x = Err e' -> e' = e) ->
  (exists x, In x l /\ f x = Err e) ->
  mapM f l = Err e.
Proof.
  intros Hone (x & Hin & Hx).
  induction l as [|y l IH]; [destruct Hin|]. cbn [mapM].
  destruct (f y) as [z|e'] eqn:Ey; cbn [bind].
  - destruct Hin as [->|Hin]; [congruence|]. rewrite (IH Hin). reflexivity.
  - rewrite (Hone _ _ Ey). reflexivity.
Qed.

(** One commit without a label is enough for the list of groups to raise
    the exception: nothing is pushed, no pull request is touched. *)
Lemma none_label_type_error repo branch_prefix commits labels :
  mapM (gh_branch repo) commits = Ok labels ->
  In None labels ->
  grouped_commits repo (Some branch_prefix) commits = Err TypeError.
Proof.
  intros Hl Hn. unfold grouped_commits. rewrite Hl.
  cbn [bind gh_branch_prefix].
  apply mapM_fails.
  - intros [[b|] cs] e; cbn [fst snd]; [discriminate|]. intros [= <-]. reflexivity.
  - assert (H : In None (map fst (groupby (combine labels commits)))).
    { rewrite groupby_keys, combine_keys by (eapply mapM_length; exact Hl).
      apply In_run_keys. exact Hn. }
    apply in_map_iff in H as ([k cs] & Hk & Hin). cbn [fst] in Hk. subst k.
    exists (None, cs). split; [exact Hin|reflexivity].
Qed.

(** C7: where it fails.  The first commit of the scenario has no label;
    the chain passes the validation, and neither the labelled groups are
    pushed nor their pull requests made: both commands raise the exception.
    Without the first commit, both labelled groups are pushed. *)
Theorem unlabelled_commit_breaks_sync :
  branch_commits Examples.scenario "origin/main" Examples.scenario_log
  = Ok [Examples.a1; Examples.b2; Examples.c3; Examples.d4]
  /\ mapM (gh_branch Examples.scenario)
       [Examples.a1; Examples.b2; Examples.c3; Examples.d4]
     = Ok [None; Some "feat-x"; Some "feat-x"; Some "feat-y"]
  /\ push_branches Examples.scenario false (Some "") "origin/main"
       Examples.scenario_log
     = Err TypeError
  /\ create_and_update_prs Examples.scenario false (Some "") "origin/main"
       Examples.scenario_log (fun _ => [])
     = ([], Err TypeError)
  /\ push_branches Examples.scenario false (Some "") "origin/main"
       Examples.labelled_log
     = Ok [ForcePush "origin" "c3" "feat-x"; ForcePush "origin" "d4" "feat-y"].
Proof. repeat split. Qed.

(** ** C8 *)

Lemma split_nonempty sep s : split sep s <> [].
Proof.
  destruct s as [|c s]; simpl; [discriminate|].
  destruct (Ascii.eqb c sep); [discriminate|].
  destruct (split sep s); discriminate.
Qed.

(** [(a + sep + b).split(sep) == a.split(sep) + b.split(sep)] *)
Lemma split_app_sep sep a b :
  split sep (a ++ String sep b) = (split sep a ++ split sep b)%list.
Proof.
  induction a as [|c a IH]; simpl.
  - rewrite Ascii.eqb_refl. reflexivity.
  - destruct (Ascii.eqb c sep); rewrite IH; [reflexivity|].
    pose proof (split_nonempty sep a) as Hne.
    destruct (split sep a) as [|l ls]; [contradiction Hne; reflexivity|].
    reflexivity.
Qed.

Lemma split_lacks sep s : lacks sep s = true -> split sep s = [s].
Proof.
  induction s as [|c s IH]; simpl; [reflexivity|].
  intros H. apply andb_true_iff in H as [Hc H]. apply negb_true_iff in Hc.
  rewrite Hc, (IH H). reflexivity.
Qed.

Lemma last_app_nonempty {A} (l1 l2 : list A) d :
  l2 <> [] -> last (l1 ++ l2) d = last l2 d.
Proof.
  intros H. induction l1 as [|x l1 IH]; [reflexivity|].
  cbn [app]. change (last (x :: l1 ++ l2) d) with
    (match (l1 ++ l2)%list with [] => x | _ :: _ => last (l1 ++ l2) d end).
  destruct (l1 ++ l2)%list eqn:E; [|exact IH].
  apply app_eq_nil in E as [_ E]. contradiction.
Qed.

(** The base of the first group is what follows the last slash of the
    tracked upstream ref. *)
Lemma upstream_base_after_slash head tail :
  upstream_base (head ++ "/" ++ tail) = upstream_base tail.
Proof.
  unfold upstream_base. change (head ++ "/" ++ tail) with (head ++ String "/" tail).
  rewrite split_app_sep. apply last_app_nonempty, split_nonempty.
Qed.

(** For a branch name without a slash, that is the upstream branch. *)
Lemma upstream_base_plain remote branch :
  lacks "/" branch = true ->
  upstream_base (upstream_short remote branch) = branch.
Proof.
  intros H. unfold upstream_short. rewrite upstream_base_after_slash.
  unfold upstream_base. rewrite (split_lacks _ _ H). reflexivity.
Qed.

(** The bases form a chain: with no pull request open yet, the loop
    creates one per group, the first on [upstream_base], each other one on
    the name of the group before it. *)
Lemma created_pull_bases_chain upstream_branch pre todo :
  pr_loop false upstream_branch (fun _ => []) (pre ++ todo) (List.length pre) todo
  = (map (fun bg => CreatePull (fst (snd bg)) EmptyString (fst bg) (fst (snd bg)))
         (combine (pr_base upstream_branch (pre ++ todo) (List.length pre)
                   :: map fst todo) todo),
     Ok tt).
Proof.
  revert pre. induction todo as [|[branch cs] todo IH]; intros pre; [reflexivity|].
  cbn [pr_loop prs_for filter decide perform].
  specialize (IH (pre ++ [(branch, cs)])%list).
  rewrite <- app_assoc, length_app in IH. cbn [app List.length] in IH.
  rewrite Nat.add_1_r in IH. rewrite IH.
  cbn [map combine fst snd app]. do 3 f_equal.
  cbn [pr_base]. rewrite nth_middle. reflexivity.
Qed.

(** C8: where it fails.  The branch tracks [release/1.0] of [origin]; the
    base of the first group is [1.0].  The second group is based on the
    first. *)
Theorem upstream_base_drops_path :
  upstream_short "origin" "release/1.0" = "origin/release/1.0"
  /\ upstream_base "origin/release/1.0" = "1.0"
  /\ create_and_update_prs Examples.scenario false (Some "") "origin/release/1.0"
       Examples.labelled_log (fun _ => [])
     = ([CreatePull "feat-x" "" "1.0" "feat-x";
         CreatePull "feat-y" "" "feat-x" "feat-y"], Ok tt).
Proof. repeat split. Qed.

(** ** C9 *)

Lemma prs_for_In branch pulls pr :
  In pr (prs_for branch pulls) <-> In pr pulls /\ head_ref pr = branch.
Proof.
  unfold prs_for. rewrite filter_In, String.eqb_eq. reflexivity.
Qed.

(** One step of the loop: an ambiguous group ends it with the fatal error
    that lists the pull requests; any other decision is performed and the
    loop goes on. *)
Lemma pr_loop_step dry_run upstream_branch get_pulls grouped idx branch cs todo :
  pr_loop dry_run upstream_branch get_pulls grouped idx ((branch, cs) :: todo) =
  let d := decide branch (pr_base upstream_branch grouped idx)
             (prs_for branch (get_pulls branch)) in
  match d with
  | Ambiguous pr_urls => ([], Err (MultipleOpenPRs branch pr_urls))
  | _ => ((perform dry_run d
           ++ fst (pr_loop dry_run upstream_branch get_pulls grouped (S idx) todo))%list,
          snd (pr_loop dry_run upstream_branch get_pulls grouped (S idx) todo))
  end.
Proof.
  cbn [pr_loop]. cbv zeta.
  destruct (decide _ _ _); try reflexivity;
    destruct (pr_loop _ _ _ _ _ todo); reflexivity.
Qed.

(** C9: for a group of the loop, let the pull requests be those the
    registry returned for the branch whose head is the branch.  When there
    is none, the decision is to create, and unless it is a dry run
    [create_pull] is called with the branch as title and head, an empty
    body and the computed base.  When there is exactly one and its base
    differs from the computed base, the decision is to update the base, and
    unless it is a dry run [edit] is called on that pull request with the
    computed base.  When there is exactly one and its base is the computed
    base, nothing is called.  In these three cases the loop goes on with
    the next group.  When there is more than one, the loop ends in the
    fatal error that names the branch and lists the urls of all of them,
    and nothing is called for this group or a later one.  One of the four
    cases always applies. *)
Theorem pr_decision_cases dry_run upstream_branch get_pulls grouped idx branch cs todo :
  let base := pr_base upstream_branch grouped idx in
  let prs := filter (fun pr => String.eqb (head_ref pr) branch) (get_pulls branch) in
  let rest := pr_loop dry_run upstream_branch get_pulls grouped (S idx) todo in
  let step :=
    pr_loop dry_run upstream_branch get_pulls grouped idx ((branch, cs) :: todo) in
  (prs = [] ->
   decide branch base prs = Create base branch
   /\ step = ((if dry_run then []
               else [CreatePull branch EmptyString base branch]) ++ fst rest,
              snd rest)%list)
  /\ (forall pr, prs = [pr] -> base_ref pr <> base ->
      decide branch base prs = UpdateBase (number pr) (base_ref pr) base
      /\ step = ((if dry_run then []
                  else [EditBase (number pr) base]) ++ fst rest,
                 snd rest)%list)
  /\ (forall pr, prs = [pr] -> base_ref pr = base ->
      decide branch base prs = NoOp /\ step = rest)
  /\ (2 <= List.length prs ->
      decide branch base prs = Ambiguous (map url prs)
      /\ step = ([], Err (MultipleOpenPRs branch (map url prs))))
  /\ (prs = []
      \/ (exists pr, prs = [pr] /\ base_ref pr <> base)
      \/ (exists pr, prs = [pr] /\ base_ref pr = base)
      \/ 2 <= List.length prs).
Proof.
  intros base prs rest step. subst step rest.
  rewrite pr_loop_step. cbv zeta. fold base.
  change (prs_for branch (get_pulls branch)) with prs.
  destruct (pr_loop dry_run upstream_branch get_pulls grouped (S idx) todo)
    as [calls r].
  cbn [fst snd].
  destruct prs as [|pr [|pr' prs']]; cbn [decide List.length].
  - split; [intros _; split; [reflexivity|destruct dry_run; reflexivity]|].
    split; [intros pr [=]|]. split; [intros pr [=]|].
    split; [intros H; lia|]. left. reflexivity.
  - split; [intros [=]|].
    destruct (String.eqb (base_ref pr) base) eqn:Eb; cbn [negb].
    + apply String.eqb_eq in Eb.
      split; [intros pr0 [= <-] H; contradiction|].
      split; [intros pr0 _ _; split;
              [reflexivity|destruct dry_run; reflexivity]|].
      split; [intros H; lia|].
      right. right. left. exists pr. split; [reflexivity|exact Eb].
    + apply String.eqb_neq in Eb.
      split; [intros pr0 [= <-] _; split;
              [reflexivity|destruct dry_run; reflexivity]|].
      split; [intros pr0 [= <-] H; contradiction|].
      split; [intros H; lia|].
      right. left. exists pr. split; [reflexivity|exact Eb].
  - split; [intros [=]|]. split; [intros pr0 [=]|]. split; [intros pr0 [=]|].
    split; [intros _; split; reflexivity|].
    right. right. right. lia.
Qed.

Lemma pr_decision_cases_witness :
  pr_loop false "origin/main" Examples.registry [] 0 [("new", [])]
  = ([CreatePull "new" "" "main" "new"], Ok tt)
  /\ pr_loop false "origin/main" Examples.registry [] 0 [("moved", [])]
     = ([EditBase 2 "main"], Ok tt)
  /\ pr_loop false "origin/main" Examples.registry [] 0 [("same", [])]
     = ([], Ok tt)
  /\ pr_loop false "origin/main" Examples.registry [] 0 [("twice", [])]
     = ([], Err (MultipleOpenPRs "twice" ["https://pulls/4"; "https://pulls/5"])).
Proof.
  split; [|split; [|split]].
  - exact (proj2 (proj1 (pr_decision_cases false "origin/main" Examples.registry
                           [] 0 "new" [] []) eq_refl)).
  - refine (proj2 (proj1 (proj2 (pr_decision_cases false "origin/main"
                                   Examples.registry [] 0 "moved" [] []))
                     (mkPR 2 "moved" "old" "https://pulls/2") eq_refl _)).
    discriminate.
  - exact (proj2 (proj1 (proj2 (proj2 (pr_decision_cases false "origin/main"
                                         Examples.registry [] 0 "same" [] [])))
                    (mkPR 3 "same" "main" "https://pulls/3") eq_refl eq_refl)).
  - refine (proj2 (proj1 (proj2 (proj2 (proj2
              (pr_decision_cases false "origin/main" Examples.registry
                 [] 0 "twice" [] [])))) _)).
    cbn. lia.
Defined.

(** * Further properties of the code *)

(** ** Label resolution as a search along the ancestry *)

(** A commit that is not marked has no marked ancestor. *)
Lemma pushable_ancestry repo c a :
  not_to_be_pushed repo c = false -> In a (ancestry c) ->
  not_to_be_pushed repo a = false.
Proof.
  intros Hc Ha. destruct (not_to_be_pushed repo a) eqn:E; [|reflexivity].
  rewrite (not_to_be_pushed_descendant _ _ _ Ha E) in Hc. discriminate.
Qed.

(** X1: the label of a commit that is not marked non-pushable is decided by
    the nearest commit of its ancestry, itself first, whose message has a
    match: one match is the label, several are the failure that names that
    commit, and no commit with a match is no label. *)
Theorem gh_branch_nearest_match repo c :
  gh_branch repo c =
  if not_to_be_pushed repo c then Ok None
  else match find (fun a => nonempty (findall (commit_msg repo a)))
                  (ancestry c) with
       | None => Ok None
       | Some a => match findall (commit_msg repo a) with
                   | [m] => Ok (Some m)
                   | _ => Err (MultipleLines (sha a))
                   end
       end.
Proof.
  induction c as [s|s p IH] using Commit_ind; rewrite gh_branch_eq;
    destruct (not_to_be_pushed repo (mkCommit s _)) eqn:Hn; try reflexivity;
    cbn [ancestry parent find];
    destruct (findall (commit_msg repo (mkCommit s _))) as [|m ms] eqn:Hf;
    cbn [nonempty]; try reflexivity.
  - rewrite Hf. reflexivity.
  - rewrite IH.
    rewrite (pushable_ancestry repo _ p Hn) by (right; apply ancestry_self).
    reflexivity.
  - rewrite Hf. reflexivity.
Qed.

(** ** The matches, line by line *)

Lemma lstrip_in_line_fst s :
  lstrip (fst (dot_star s)) <> EmptyString ->
  fst (dot_star (lstrip s)) = lstrip (fst (dot_star s)).
Proof.
  induction s as [|c s IH]; simpl; [reflexivity|].
  destruct (is_newline c) eqn:E; simpl; [intros H; contradiction H; reflexivity|].
  destruct (dot_star s) as [g r] eqn:Es; simpl in *.
  destruct (isspace c) eqn:Ec.
  - exact IH.
  - intros _. simpl. rewrite E, Es. reflexivity.
Qed.

Lemma is_annotation_line_first_line s :
  is_annotation_line (fst (dot_star s)) =
  match keyword s with Some _ => true | None => false end.
Proof.
  unfold is_annotation_line. rewrite keyword_first_line.
  destruct (keyword s); reflexivity.
Qed.

Lemma label_text_first_line s :
  Terms.label_text (fst (dot_star s)) =
  match keyword s with
  | Some k => lstrip (fst (dot_star k))
  | None => EmptyString
  end.
Proof.
  unfold Terms.label_text. rewrite keyword_first_line.
  destruct (keyword s); reflexivity.
Qed.

(** When every annotation line carries a value, the matches are the texts
    of the annotation lines, in order. *)
Lemma findall_texts n :
  forall s, String.length s <= n ->
    (forall l, In l (annotation_lines s) -> carries_value l = true) ->
    findall_from true s = map Terms.label_text (annotation_lines s).
Proof.
  induction n as [n IH] using lt_wf_ind. intros s Hn.
  unfold annotation_lines, lines. rewrite split_dot_star. cbn [filter].
  rewrite is_annotation_line_first_line.
  pose proof (carries_value_first_line s) as Hv.
  pose proof (label_text_first_line s) as Ht.
  destruct (keyword s) as [k|] eqn:Ek.
  - intros H. cbn [map]. rewrite Ht.
    assert (Hl : truthy (lstrip (fst (dot_star k))) = true).
    { rewrite <- Hv. apply H. left. reflexivity. }
    apply truthy_true in Hl.
    rewrite (findall_from_true_keyword _ _ Ek).
    rewrite (lstrip_in_line_fst _ Hl), (lstrip_in_line _ Hl), (keyword_rest _ _ Ek).
    f_equal. rewrite findall_rest.
    destruct (snd (dot_star s)) as [|c s'] eqn:E; [reflexivity|].
    apply dot_star_length_lt in E.
    apply (IH (String.length s')); [lia|lia|].
    intros l Hin. apply H. right. exact Hin.
  - intros H.
    rewrite (findall_from_true_no_keyword _ Ek), findall_from_false.
    destruct (snd (dot_star s)) as [|c s'] eqn:E; [reflexivity|].
    apply dot_star_length_lt in E.
    apply (IH (String.length s')); [lia|lia|exact H].
Qed.

(** X2: a commit that is not marked non-pushable and whose message has one
    annotation line, which carries a value, resolves to the text after the
    colon of that line: the white space before it is dropped, the white
    space after it is kept. *)
Theorem single_annotation_label repo c l :
  not_to_be_pushed repo c = false ->
  annotation_lines (commit_msg repo c) = [l] ->
  carries_value l = true ->
  gh_branch repo c = Ok (Some (Terms.label_text l)).
Proof.
  intros Hn Hl Hv. rewrite gh_branch_eq, Hn. unfold findall.
  rewrite (findall_texts (String.length (commit_msg repo c))), Hl;
    [reflexivity|lia|].
  rewrite Hl. intros l' [<-|[]]. exact Hv.
Qed.

Lemma single_annotation_label_witness :
  not_to_be_pushed MoreExamples.trailing_space Examples.a1 = false
  /\ annotation_lines (commit_msg MoreExamples.trailing_space Examples.a1)
     = ["GPC:   feat-x  "]
  /\ carries_value "GPC:   feat-x  " = true
  /\ gh_branch MoreExamples.trailing_space Examples.a1 = Ok (Some "feat-x  ").
Proof.
  split; [reflexivity|]. split; [reflexivity|]. split; [reflexivity|].
  apply (single_annotation_label MoreExamples.trailing_space Examples.a1
           "GPC:   feat-x  "); reflexivity.
Defined.

(** ** What the validation can return *)

Lemma NoDup_map_fst_filter {A B} (f : A * B -> bool) (l : list (A * B)) :
  NoDup (map fst l) -> NoDup (map fst (filter f l)).
Proof.
  induction l as [|x l IH]; cbn [map filter]; intros H; [constructor|].
  inversion H as [|? ? Hx Hl]; subst.
  destruct (f x); cbn [map]; [|exact (IH Hl)].
  constructor; [|exact (IH Hl)].
  intros Hin. apply Hx. apply in_map_iff in Hin as (y & Hy & Hin).
  apply filter_In in Hin as [Hin _]. apply in_map_iff. exists y. auto.
Qed.

(** X3: when the parent hashes hold no newline, the validation returns, or
    fails in one of two ways only: the failure of the label resolution,
    which names a commit of the ancestry of one of the commits given, or
    the AABA error, which lists at least one label, no label twice and
    never the empty one.  It never reports a merge commit and never a
    commit without a branch. *)
Theorem validation_outcomes repo commits :
  (forall c, In c commits -> forallb no_newline (parents repo (sha c)) = true) ->
  validate_branch_commits repo commits = Ok tt
  \/ (exists c a, In c commits /\ In a (ancestry c)
        /\ validate_branch_commits repo commits = Err (MultipleLines (sha a)))
  \/ (exists bs, bs <> [] /\ NoDup bs /\ ~ In EmptyString bs
        /\ validate_branch_commits repo commits = Err (AABA bs)).
Proof.
  intros H. rewrite validate_branch_commits_eq.
  rewrite (no_merge_commit_detected _ _ H). cbn [nonempty].
  destruct (mapM (gh_branch repo) commits) as [labels|e] eqn:E; cbn [bind].
  - unfold validate_labels.
    pose proof (repeated_branches_reappear commits labels) as Hr.
    specialize (fun b => Hr b (mapM_length _ _ _ E)).
    pose proof (NoDup_map_fst_filter (fun bc => (1 <? snd bc)%nat) _
                  (Counter_nodup (truthy_keys (groupby (combine labels commits)))))
      as Hnd.
    destruct (map fst _) as [|b bs]; cbn [nonempty]; [left; reflexivity|].
    right. right. exists (b :: bs). repeat split.
    + discriminate.
    + exact Hnd.
    + intros Hin. apply Hr in Hin as [Hne _]. contradiction Hne. reflexivity.
  - right. left. apply mapM_error in E as (c & Hc & E).
    apply gh_branch_error in E as (a & Ha & ->). exists c, a. auto.
Qed.

Lemma validation_outcomes_witness :
  (forall c, In c [Examples.a1; Examples.b2; Examples.c3] ->
             forallb no_newline (parents Examples.aaba (sha c)) = true)
  /\ (validate_branch_commits Examples.aaba [Examples.a1; Examples.b2; Examples.c3]
      = Ok tt
      \/ (exists c a, In c [Examples.a1; Examples.b2; Examples.c3]
            /\ In a (ancestry c)
            /\ validate_branch_commits Examples.aaba
                 [Examples.a1; Examples.b2; Examples.c3]
               = Err (MultipleLines (sha a)))
      \/ (exists bs, bs <> [] /\ NoDup bs /\ ~ In EmptyString bs
            /\ validate_branch_commits Examples.aaba
                 [Examples.a1; Examples.b2; Examples.c3]
               = Err (AABA bs))).
Proof.
  assert (H : forall c, In c [Examples.a1; Examples.b2; Examples.c3] ->
                forallb no_newline (parents Examples.aaba (sha c)) = true).
  { intros c [<-|[<-|[<-|[]]]]; reflexivity. }
  split; [exact H|].
  exact (validation_outcomes Examples.aaba
           [Examples.a1; Examples.b2; Examples.c3] H).
Defined.

(** ** The chain that [branch_commits] builds *)

Lemma chain_from_shas last log :
  map sha (chain_from last log) = filter truthy log.
Proof.
  revert last. induction log as [|s log IH]; intros last; cbn [chain_from filter];
    [reflexivity|].
  destruct (truthy s); [|apply IH]. cbn [map sha]. rewrite IH. reflexivity.
Qed.

(** X4: the chain has one commit for each line of the log that is not
    empty, in the order of the log; the first commit has no parent, and the
    parent of every other commit is the commit before it. *)
Theorem chain_shape log :
  map sha (chain_from None log) = filter truthy log
  /\ (forall c post, chain_from None log = c :: post -> parent c = None)
  /\ (forall pre p c post,
        chain_from None log = (pre ++ p :: c :: post)%list ->
        parent c = Some p).
Proof.
  split; [apply chain_from_shas|]. split.
  - intros c post. apply chain_from_head.
  - intros pre p c post. apply chain_from_next.
Qed.

(** ** Nothing to push *)

Lemma chain_from_empty_lines last log :
  (forall l, In l log -> l = EmptyString) -> chain_from last log = [].
Proof.
  induction log as [|s log IH]; intros H; cbn [chain_from]; [reflexivity|].
  rewrite (H s (or_introl eq_refl)). cbn [truthy]. apply IH.
  intros l Hl. apply H. right. exact Hl.
Qed.

(** X5: when git's log is empty (it splits into empty lines only) and an
    upstream is set, [branch_commits] returns no commit, nothing is pushed
    and no pull request is created or changed. *)
Theorem empty_log_no_action repo dry_run branch_prefix upstream_branch log get_pulls :
  upstream_branch <> EmptyString ->
  (forall l, In l log -> l = EmptyString) ->
  branch_commits repo upstream_branch log = Ok []
  /\ push_branches repo dry_run branch_prefix upstream_branch log = Ok []
  /\ create_and_update_prs repo dry_run branch_prefix upstream_branch log get_pulls
     = ([], Ok tt).
Proof.
  intros Hu Hl.
  assert (Hb : branch_commits repo upstream_branch log = Ok []).
  { unfold branch_commits. apply truthy_iff in Hu. rewrite Hu. cbn [negb].
    rewrite (chain_from_empty_lines _ _ Hl). reflexivity. }
  split; [exact Hb|]. split.
  - unfold push_branches. rewrite Hb. reflexivity.
  - unfold create_and_update_prs. rewrite Hb. reflexivity.
Qed.

Lemma empty_log_no_action_witness :
  "origin/main" <> EmptyString
  /\ (forall l, In l [EmptyString] -> l = EmptyString)
  /\ push_branches Examples.scenario false None "origin/main" [EmptyString] = Ok []
  /\ create_and_update_prs Examples.scenario false None "origin/main" [EmptyString]
       (fun _ => []) = ([], Ok tt).
Proof.
  assert (Hu : "origin/main" <> EmptyString) by discriminate.
  assert (Hl : forall l, In l [EmptyString] -> l = EmptyString).
  { intros l [<-|[]]. reflexivity. }
  split; [exact Hu|]. split; [exact Hl|].
  exact (proj2 (empty_log_no_action Examples.scenario false None "origin/main"
                  [EmptyString] (fun _ => []) Hu Hl)).
Defined.

(** ** Dry runs *)

Lemma pr_loop_dry_run upstream_branch get_pulls grouped idx todo :
  fst (pr_loop true upstream_branch get_pulls grouped idx todo) = [].
Proof.
  revert idx. induction todo as [|[branch cs] todo IH]; intros idx;
    [reflexivity|].
  rewrite pr_loop_step. cbv zeta.
  destruct (decide _ _ _); cbn [fst perform app]; try apply IH; reflexivity.
Qed.

Lemma flat_map_nil {A B} (f : A -> list B) l :
  (forall x, f x = []) -> flat_map f l = [].
Proof.
  intros H. induction l as [|x l IH]; cbn [flat_map]; [reflexivity|].
  rewrite H, IH. reflexivity.
Qed.

(** X6: in a dry run no call that changes the remote is made: whatever
    [push_branches] returns is empty, and [create_and_update_prs] makes no
    call, also when it ends in a failure. *)
Theorem dry_run_changes_nothing repo branch_prefix upstream_branch log get_pulls :
  (push_branches repo true branch_prefix upstream_branch log = Ok []
   \/ exists e, push_branches repo true branch_prefix upstream_branch log = Err e)
  /\ fst (create_and_update_prs repo true branch_prefix upstream_branch log
            get_pulls) = [].
Proof.
  split.
  - unfold push_branches.
    destruct (branch_commits repo upstream_branch log) as [commits|e]; cbn [bind];
      [|right; eexists; reflexivity].
    destruct (grouped_commits repo branch_prefix commits) as [grouped|e];
      cbn [bind]; [|right; eexists; reflexivity].
    left. rewrite flat_map_nil; [reflexivity|]. intros [b cs]. reflexivity.
  - unfold create_and_update_prs.
    destruct (bind _ _) as [grouped|e]; [|reflexivity].
    apply pr_loop_dry_run.
Qed.

(** ** What is pushed *)

Lemma groupby_nonempty {A} (l : list (option string * A)) k g :
  In (k, g) (groupby l) -> g <> [].
Proof.
  revert k g. induction l as [|[k0 x] l IH]; intros k g; cbn [groupby];
    [intros []|].
  destruct (groupby l) as [|[k' g'] rest] eqn:E.
  - intros [[= <- <-]|[]]. discriminate.
  - destruct (label_eqb k0 k').
    + intros [[= <- <-]|Hin]; [discriminate|]. apply (IH k g). right. exact Hin.
    + intros [[= <- <-]|Hin]; [discriminate|]. apply (IH k g). exact Hin.
Qed.

(** The groups are the list cut into pieces: nothing lost, nothing moved. *)
Lemma groupby_concat {A} (l : list (option string * A)) :
  concat (map snd (groupby l)) = map snd l.
Proof.
  induction l as [|[k x] l IH]; cbn [groupby]; [reflexivity|].
  cbn [map snd]. rewrite <- IH.
  destruct (groupby l) as [|[k' g] rest]; [reflexivity|].
  destruct (label_eqb k k'); reflexivity.
Qed.

Lemma combine_snd {A B} (ks : list A) (xs : list B) :
  List.length ks = List.length xs -> map snd (combine ks xs) = xs.
Proof.
  revert xs. induction ks as [|k ks IH]; intros [|x xs]; simpl; try discriminate;
    [reflexivity|]. intros [= H]. rewrite (IH _ H). reflexivity.
Qed.

(** The list of groups, when it is built: every key is a label, every name
    is the prefix and the label, the commits are those of the group; and
    when there is a group, the prefix was there to look up. *)
Lemma grouped_names branch_prefix (G : list (option string * list Commit)) grouped :
  mapM (fun g => prefix <- gh_branch_prefix branch_prefix ;;
                 match fst g with
                 | Some branch => Ok (prefix ++ branch, snd g)
                 | None => @Err Commit _ TypeError
                 end) G = Ok grouped ->
  exists prefix bs,
    map fst G = map Some bs
    /\ map fst grouped = map (append prefix) bs
    /\ map snd grouped = map snd G
    /\ (G <> [] -> gh_branch_prefix branch_prefix = Ok prefix).
Proof.
  destruct branch_prefix as [value|]; cbn [gh_branch_prefix bind].
  - intros H. exists (strip value).
    assert (H' : exists bs, map fst G = map Some bs
                            /\ map fst grouped = map (append (strip value)) bs
                            /\ map snd grouped = map snd G).
    { revert grouped H.
      induction G as [|[[b|] cs] G IH]; intros grouped; cbn [mapM fst snd].
      - intros [= <-]. exists []. auto.
      - cbn [bind]. destruct (mapM _ G) as [gs|e]; cbn [bind]; [|discriminate].
        intros [= <-]. destruct (IH gs eq_refl) as (bs & H1 & H2 & H3).
        exists (b :: bs). cbn [map fst snd]. rewrite H1, H2, H3. auto.
      - discriminate. }
    destruct H' as (bs & H1 & H2 & H3). exists bs. auto.
  - destruct G as [|g G]; cbn [mapM bind]; [|discriminate].
    intros [= <-]. exists EmptyString, []. repeat split. intros H. contradiction.
Qed.

Lemma push_one remote branch cs :
  cs <> [] ->
  push false remote (branch, cs)
  = [ForcePush remote (sha (last cs (mkCommit EmptyString None))) branch].
Proof.
  intros H. unfold push.
  destruct (exists_last H) as (cs' & c & ->).
  rewrite rev_app_distr, last_last. reflexivity.
Qed.

(** One push for each group, of its last commit to its name. *)
Lemma pushes_of_groups remote (grouped : list (string * list Commit)) :
  (forall g, In g grouped -> snd g <> []) ->
  flat_map (push false remote) grouped
  = map (fun g => ForcePush remote
                    (sha (last (snd g) (mkCommit EmptyString None))) (fst g))
        grouped.
Proof.
  induction grouped as [|[b cs] grouped IH]; intros H; cbn [flat_map map];
    [reflexivity|].
  rewrite (push_one remote b cs) by (apply (H (b, cs)); left; reflexivity).
  cbn [app fst snd]. rewrite IH; [reflexivity|].
  intros g Hg. apply H. right. exact Hg.
Qed.

Lemma NoDup_run_count (l : list (option string)) :
  (forall k, List.length (filter (label_eqb k) l) <= 1) -> NoDup l.
Proof.
  induction l as [|x l IH]; intros H; constructor.
  - intros Hin. specialize (H x). cbn [filter] in H.
    rewrite label_eqb_refl in H. cbn [List.length] in H.
    assert (1 <= List.length (filter (label_eqb x) l)); [|lia].
    clear -Hin. induction l as [|y l IH]; [destruct Hin|]. cbn [filter].
    destruct (label_eqb x y) eqn:E; cbn [List.length]; [lia|].
    destruct Hin as [->|Hin]; [rewrite label_eqb_refl in E; discriminate|].
    exact (IH Hin).
  - apply IH. intros k. specialize (H k). cbn [filter] in H.
    destruct (label_eqb k x); cbn [List.length] in H; lia.
Qed.

Lemma append_inj p a b : (p ++ a = p ++ b)%string -> a = b.
Proof.
  induction p as [|c p IH]; simpl; [auto|]. intros [= H]. exact (IH H).
Qed.

(** Everything [push_branches] has in hand when it pushes. *)
Lemma push_branches_ok repo branch_prefix upstream_branch log acts :
  push_branches repo false branch_prefix upstream_branch log = Ok acts ->
  exists labels grouped,
    validate_branch_commits repo (chain_from None log) = Ok tt
    /\ mapM (gh_branch repo) (chain_from None log) = Ok labels
    /\ mapM (fun g => prefix <- gh_branch_prefix branch_prefix ;;
                      match fst g with
                      | Some branch => Ok (prefix ++ branch, snd g)
                      | None => @Err Commit _ TypeError
                      end)
            (groupby (combine labels (chain_from None log))) = Ok grouped
    /\ acts = map (fun g => ForcePush (git_upstream_remote upstream_branch)
                              (sha (last (snd g) (mkCommit EmptyString None)))
                              (fst g)) grouped.
Proof.
  unfold push_branches, branch_commits.
  destruct (negb (truthy upstream_branch)); [discriminate|]. cbv zeta.
  destruct (match chain_from None log with [] => _ | _ :: _ => _ end);
    cbn [bind]; [|discriminate].
  destruct (validate_branch_commits repo (chain_from None log)) as [[]|e] eqn:Hv;
    cbn [bind]; [|discriminate].
  unfold grouped_commits.
  destruct (mapM (gh_branch repo) (chain_from None log)) as [labels|e] eqn:Hl;
    cbn [bind]; [|discriminate].
  destruct (mapM _ (groupby _)) as [grouped|e] eqn:Hg; [|discriminate].
  cbn [bind]. intros [= <-]. exists labels, grouped.
  split; [reflexivity|]. split; [reflexivity|]. split; [exact Hg|].
  apply pushes_of_groups.
  destruct (grouped_names _ _ _ Hg) as (prefix & bs & _ & _ & Hs & _).
  intros g Hin. apply (in_map snd) in Hin. rewrite Hs in Hin.
  apply in_map_iff in Hin as ([k cs] & Hk & Hin). cbn [snd] in Hk. subst cs.
  exact (groupby_nonempty _ _ _ Hin).
Qed.

(** X7: when no commit resolves to the empty label and [push_branches]
    succeeds, no branch is pushed twice: the branches of the pushes are
    pairwise different. *)
Theorem pushed_branches_distinct repo branch_prefix upstream_branch log acts :
  (forall c, In c (chain_from None log) ->
             gh_branch repo c <> Ok (Some EmptyString)) ->
  push_branches repo false branch_prefix upstream_branch log = Ok acts ->
  NoDup (map Terms.pushed_branch acts).
Proof.
  intros Hne Hp.
  destruct (push_branches_ok _ _ _ _ _ Hp) as (labels & grouped & Hv & Hl & Hg & ->).
  destruct (grouped_names _ _ _ Hg) as (prefix & bs & Hk & Hn & _ & _).
  rewrite map_map. cbn [Terms.pushed_branch].
  rewrite <- (map_map fst Some), Hn.
  assert (Hlen : List.length labels = List.length (chain_from None log))
    by (eapply mapM_length; exact Hl).
  rewrite groupby_keys, (combine_keys _ _ Hlen) in Hk.
  assert (Hbs : NoDup (map Some bs)).
  { rewrite <- Hk. apply NoDup_run_count. intros [b|].
    - destruct (Nat.le_gt_cases (run_count (Some b) labels) 1) as [H|H];
        [exact H|exfalso].
      assert (Hr : b <> EmptyString /\ reappears (Some b) labels).
      { split; [|apply run_count_reappears; exact H].
        intros ->. assert (Hin : In (Some EmptyString) labels)
          by (apply run_count_In; lia).
        clear -Hin Hl Hne. revert labels Hl Hin.
        induction (chain_from None log) as [|c cs IH]; cbn [mapM]; intros labels.
        - intros [= <-] [].
        - destruct (gh_branch repo c) as [y|e] eqn:Ec; cbn [bind]; [|discriminate].
          destruct (mapM (gh_branch repo) cs) as [ys|e]; cbn [bind]; [|discriminate].
          intros [= <-] [->|Hin].
          + apply (Hne c); [left; reflexivity|exact Ec].
          + apply (IH (fun c' H' => Hne c' (or_intror H')) ys eq_refl Hin). }
      apply (repeated_branches_reappear (chain_from None log) labels b Hlen) in Hr.
      rewrite validate_branch_commits_eq in Hv.
      destruct (nonempty (filter _ _)); [discriminate|].
      rewrite Hl in Hv. cbn [bind] in Hv. unfold validate_labels in Hv.
      destruct (map fst _); [destruct Hr|discriminate].
    - assert (H0 : List.length (filter (label_eqb None) (run_keys labels)) = 0);
        [|rewrite H0; lia].
      rewrite Hk. clear. induction bs as [|b bs IH]; [reflexivity|exact IH]. }
  clear -Hbs. induction bs as [|b bs IH]; cbn [map]; [constructor|].
  cbn [map] in Hbs. inversion Hbs as [|? ? Hb Hr]; subst.
  constructor; [|exact (IH Hr)].
  intros Hin. apply Hb. apply in_map_iff in Hin as (x & Hx & Hin).
  injection Hx as Hx. apply in_map_iff in Hin as (y & Hy & Hin).
  rewrite Hx in Hy. apply append_inj in Hy. subst y. apply in_map. exact Hin.
Qed.

Lemma pushed_branches_distinct_witness :
  (forall c, In c (chain_from None Examples.labelled_log) ->
             gh_branch Examples.scenario c <> Ok (Some EmptyString))
  /\ push_branches Examples.scenario false (Some "") "origin/main" Examples.labelled_log
     = Ok [ForcePush "origin" "c3" "feat-x"; ForcePush "origin" "d4" "feat-y"]
  /\ NoDup (map Terms.pushed_branch
              [ForcePush "origin" "c3" "feat-x"; ForcePush "origin" "d4" "feat-y"]).
Proof.
  assert (H : forall c, In c (chain_from None Examples.labelled_log) ->
                gh_branch Examples.scenario c <> Ok (Some EmptyString)).
  { intros c [<-|[<-|[<-|[]]]]; intros E; vm_compute in E; discriminate E. }
  split; [exact H|]. split; [reflexivity|].
  exact (pushed_branches_distinct Examples.scenario (Some "") "origin/main"
           Examples.labelled_log _ H eq_refl).
Defined.

Lemma last_map {A B} (f : A -> B) l d : last (map f l) (f d) = f (last l d).
Proof.
  induction l as [|x [|y l] IH]; [reflexivity|reflexivity|exact IH].
Qed.

(** X8: when [push_branches] succeeds on a log with a commit, the push
    for the last group is that of HEAD, the last commit of the log, to the
    upstream remote. *)
Theorem head_is_pushed repo branch_prefix upstream_branch log acts :
  filter truthy log <> [] ->
  push_branches repo false branch_prefix upstream_branch log = Ok acts ->
  exists acts' branch,
    acts = (acts' ++ [ForcePush (git_upstream_remote upstream_branch)
                        (last (filter truthy log) EmptyString) branch])%list.
Proof.
  intros Hlog Hp.
  destruct (push_branches_ok _ _ _ _ _ Hp) as (labels & grouped & _ & Hl & Hg & ->).
  destruct (grouped_names _ _ _ Hg) as (prefix & bs & _ & _ & Hs & _).
  assert (Hlen : List.length labels = List.length (chain_from None log))
    by (eapply mapM_length; exact Hl).
  assert (Hc : concat (map snd grouped) = chain_from None log).
  { rewrite Hs, groupby_concat. apply combine_snd, Hlen. }
  assert (Hne : forall g, In g grouped -> snd g <> []).
  { intros g Hin. apply (in_map snd) in Hin. rewrite Hs in Hin.
    apply in_map_iff in Hin as ([k cs] & Hk & Hin). cbn [snd] in Hk. subst cs.
    exact (groupby_nonempty _ _ _ Hin). }
  assert (Hg0 : grouped <> []).
  { intros ->. cbn in Hc. rewrite <- (chain_from_shas None), <- Hc in Hlog.
    apply Hlog. reflexivity. }
  destruct (exists_last Hg0) as (gs & [b cs] & ->).
  exists (map (fun g => ForcePush (git_upstream_remote upstream_branch)
                          (sha (last (snd g) (mkCommit EmptyString None))) (fst g))
              gs), b.
  rewrite map_app. cbn [map fst snd]. do 3 f_equal.
  rewrite <- (chain_from_shas None log).
  change EmptyString with (sha (mkCommit EmptyString None)) at 2.
  rewrite last_map. f_equal.
  rewrite <- Hc, map_app, concat_app. cbn [map concat snd]. rewrite app_nil_r.
  symmetry. apply last_app_nonempty.
  apply (Hne (b, cs)). apply in_or_app. right. left. reflexivity.
Qed.

Lemma head_is_pushed_witness :
  filter truthy Examples.labelled_log <> []
  /\ exists acts' branch,
       [ForcePush "origin" "c3" "feat-x"; ForcePush "origin" "d4" "feat-y"]
       = (acts' ++ [ForcePush (git_upstream_remote "origin/main")
                      (last (filter truthy Examples.labelled_log) EmptyString)
                      branch])%list.
Proof.
  assert (H : filter truthy Examples.labelled_log <> []) by discriminate.
  split; [exact H|].
  exact (head_is_pushed Examples.scenario (Some "") "origin/main" Examples.labelled_log
           _ H eq_refl).
Defined.

(** ** The loop over the groups *)

(** X9: when no pull request returned for a group has the group's branch
    as its head, the loop creates one pull request per group, in order:
    title and head are the branch, the body is empty, the base of the first
    is what follows the last slash of the upstream ref, and the base of
    every other one is the name of the group before it. *)
Theorem fresh_remote_gets_a_chain upstream_branch get_pulls grouped :
  (forall g, In g grouped -> prs_for (fst g) (get_pulls (fst g)) = []) ->
  pr_loop false upstream_branch get_pulls grouped 0 grouped
  = (map (fun bg => CreatePull (fst (snd bg)) EmptyString (fst bg) (fst (snd bg)))
         (combine (upstream_base upstream_branch :: map fst grouped) grouped),
     Ok tt).
Proof.
  intros H.
  assert (G : forall todo pre,
             grouped = (pre ++ todo)%list ->
             pr_loop false upstream_branch get_pulls grouped (List.length pre) todo
             = (map (fun bg => CreatePull (fst (snd bg)) EmptyString (fst bg)
                                 (fst (snd bg)))
                    (combine (pr_base upstream_branch grouped (List.length pre)
                              :: map fst todo) todo),
                Ok tt)).
  { induction todo as [|[branch cs] todo IH]; intros pre E; [reflexivity|].
    rewrite pr_loop_step. cbv zeta.
    assert (Hb : prs_for branch (get_pulls branch) = []).
    { apply (H (branch, cs)). rewrite E. apply in_or_app. right. left. reflexivity. }
    rewrite Hb. cbn [decide perform].
    specialize (IH (pre ++ [(branch, cs)])%list).
    rewrite <- app_assoc, length_app in IH. cbn [app List.length] in IH.
    rewrite Nat.add_1_r in IH. rewrite (IH E).
    cbn [map combine fst snd app]. do 3 f_equal.
    cbn [pr_base]. rewrite E, nth_middle. reflexivity. }
  exact (G grouped [] eq_refl).
Qed.

Lemma fresh_remote_gets_a_chain_witness :
  (forall g, In g [("feat-x", [Examples.b2]); ("feat-y", [Examples.d4])] ->
             prs_for (fst g) ((fun _ => [mkPR 7 "other" "main" "u7"]) (fst g)) = [])
  /\ pr_loop false "origin/main" (fun _ => [mkPR 7 "other" "main" "u7"])
       [("feat-x", [Examples.b2]); ("feat-y", [Examples.d4])] 0
       [("feat-x", [Examples.b2]); ("feat-y", [Examples.d4])]
     = ([CreatePull "feat-x" "" "main" "feat-x";
         CreatePull "feat-y" "" "feat-x" "feat-y"], Ok tt).
Proof.
  assert (H : forall g, In g [("feat-x", [Examples.b2]); ("feat-y", [Examples.d4])] ->
                prs_for (fst g) ((fun _ => [mkPR 7 "other" "main" "u7"]) (fst g)) = []).
  { intros g [<-|[<-|[]]]; reflexivity. }
  split; [exact H|].
  exact (fresh_remote_gets_a_chain "origin/main"
           (fun _ => [mkPR 7 "other" "main" "u7"])
           [("feat-x", [Examples.b2]); ("feat-y", [Examples.d4])] H).
Defined.

(** X10: when every group has exactly one pull request with its branch as
    head, and the base of that pull request is the base the loop computes,
    the loop makes no call and ends normally: a remote that is in step is
    left alone. *)
Theorem remote_in_step_is_left_alone dry_run upstream_branch get_pulls grouped :
  (forall i branch cs,
     nth_error grouped i = Some (branch, cs) ->
     exists pr, prs_for branch (get_pulls branch) = [pr]
                /\ base_ref pr = pr_base upstream_branch grouped i) ->
  pr_loop dry_run upstream_branch get_pulls grouped 0 grouped = ([], Ok tt).
Proof.
  intros H.
  assert (G : forall todo pre,
             grouped = (pre ++ todo)%list ->
             pr_loop dry_run upstream_branch get_pulls grouped (List.length pre) todo
             = ([], Ok tt)).
  { induction todo as [|[branch cs] todo IH]; intros pre E; [reflexivity|].
    rewrite pr_loop_step. cbv zeta.
    destruct (H (List.length pre) branch cs) as (pr & Hpr & Hb).
    { rewrite E, nth_error_app2, Nat.sub_diag by lia. reflexivity. }
    rewrite Hpr. cbn [decide]. rewrite Hb, String.eqb_refl. cbn [negb].
    specialize (IH (pre ++ [(branch, cs)])%list).
    rewrite <- app_assoc, length_app in IH. cbn [app List.length] in IH.
    rewrite Nat.add_1_r in IH. rewrite (IH E).
    destruct dry_run; reflexivity. }
  exact (G grouped [] eq_refl).
Qed.

Lemma remote_in_step_is_left_alone_witness :
  (forall i branch cs,
     nth_error [("feat-x", [Examples.b2]); ("feat-y", [Examples.d4])] i
     = Some (branch, cs) ->
     exists pr,
       prs_for branch
         ((fun _ => [mkPR 1 "feat-x" "main" "u1"; mkPR 2 "feat-y" "feat-x" "u2"])
            branch) = [pr]
       /\ base_ref pr
          = pr_base "origin/main"
              [("feat-x", [Examples.b2]); ("feat-y", [Examples.d4])] i)
  /\ pr_loop false "origin/main"
       (fun _ => [mkPR 1 "feat-x" "main" "u1"; mkPR 2 "feat-y" "feat-x" "u2"])
       [("feat-x", [Examples.b2]); ("feat-y", [Examples.d4])] 0
       [("feat-x", [Examples.b2]); ("feat-y", [Examples.d4])]
     = ([], Ok tt).
Proof.
  assert (H : forall i branch cs,
     nth_error [("feat-x", [Examples.b2]); ("feat-y", [Examples.d4])] i
     = Some (branch, cs) ->
     exists pr,
       prs_for branch
         ((fun _ => [mkPR 1 "feat-x" "main" "u1"; mkPR 2 "feat-y" "feat-x" "u2"])
            branch) = [pr]
       /\ base_ref pr
          = pr_base "origin/main"
              [("feat-x", [Examples.b2]); ("feat-y", [Examples.d4])] i).
  { intros [|[|[|i]]] branch cs E; cbn in E; try discriminate E;
      injection E as <- <-; eexists; split; reflexivity. }
  split; [exact H|].
  exact (remote_in_step_is_left_alone false "origin/main" _ _ H).
Defined.

(** X11: the loop ends at the first group with more than one pull request
    for its branch: the calls made for the groups before it stand, the
    failure names the branch and lists the urls, and the groups after it
    are not looked at. *)
Theorem ambiguity_ends_the_loop dry_run upstream_branch get_pulls grouped
  pre branch cs post idx :
  (forall g, In g pre ->
             List.length (prs_for (fst g) (get_pulls (fst g))) <= 1) ->
  2 <= List.length (prs_for branch (get_pulls branch)) ->
  pr_loop dry_run upstream_branch get_pulls grouped idx
    (pre ++ (branch, cs) :: post)
  = (fst (pr_loop dry_run upstream_branch get_pulls grouped idx pre),
     Err (MultipleOpenPRs branch (map url (prs_for branch (get_pulls branch))))).
Proof.
  intros Hpre Hamb. revert idx.
  induction pre as [|[b0 cs0] pre IH]; intros idx; cbn [app].
  - rewrite pr_loop_step. cbv zeta.
    destruct (prs_for branch (get_pulls branch)) as [|p1 [|p2 ps]];
      cbn [List.length] in Hamb; try lia. reflexivity.
  - rewrite !pr_loop_step. cbv zeta.
    rewrite IH by (intros g Hg; apply Hpre; right; exact Hg).
    pose proof (Hpre (b0, cs0) (or_introl eq_refl)) as H0. cbn [fst] in H0.
    destruct (prs_for b0 (get_pulls b0)) as [|p1 [|p2 ps]];
      cbn [List.length] in H0; try lia; cbn [decide];
      [|destruct (negb _)]; reflexivity.
Qed.

Lemma ambiguity_ends_the_loop_witness :
  (forall g, In g [("feat-x", [Examples.b2])] ->
     List.length
       (prs_for (fst g)
          ((fun _ => [mkPR 4 "feat-y" "main" "u4"; mkPR 5 "feat-y" "feat-x" "u5"])
             (fst g))) <= 1)
  /\ 2 <= List.length
            (prs_for "feat-y"
               ((fun _ => [mkPR 4 "feat-y" "main" "u4"; mkPR 5 "feat-y" "feat-x" "u5"])
                  "feat-y"))
  /\ pr_loop false "origin/main"
       (fun _ => [mkPR 4 "feat-y" "main" "u4"; mkPR 5 "feat-y" "feat-x" "u5"])
       [("feat-x", [Examples.b2]); ("feat-y", [Examples.c3]); ("feat-z", [Examples.d4])]
       0
       ([("feat-x", [Examples.b2])]
        ++ ("feat-y", [Examples.c3]) :: [("feat-z", [Examples.d4])])
     = ([CreatePull "feat-x" "" "main" "feat-x"],
        Err (MultipleOpenPRs "feat-y" ["u4"; "u5"])).
Proof.
  assert (H : forall g, In g [("feat-x", [Examples.b2])] ->
     List.length
       (prs_for (fst g)
          ((fun _ => [mkPR 4 "feat-y" "main" "u4"; mkPR 5 "feat-y" "feat-x" "u5"])
             (fst g))) <= 1).
  { intros g [<-|[]]. apply le_0_n. }
  split; [exact H|]. split; [apply le_n|].
  exact (ambiguity_ends_the_loop false "origin/main" _ _ _ "feat-y" _ _ 0 H (le_n 2)).
Defined.

(** ** The upstream ref *)

(** X12: for a branch that tracks [branch] of [remote], where the name of
    the remote has no slash, [git_upstream_remote] gives the remote back,
    whatever the branch; the base of the first group is what follows the
    last slash of the branch, which is the branch when it has no slash. *)
Theorem upstream_ref_parts remote branch :
  lacks "/" remote = true ->
  git_upstream_remote (upstream_short remote branch) = remote
  /\ upstream_base (upstream_short remote branch) = upstream_base branch
  /\ (lacks "/" branch = true ->
      upstream_base (upstream_short remote branch) = branch).
Proof.
  intros Hr. split; [|split].
  - unfold git_upstream_remote, upstream_short.
    change (remote ++ "/" ++ branch) with (remote ++ String "/" branch).
    rewrite split_app_sep, (split_lacks _ _ Hr). reflexivity.
  - apply upstream_base_after_slash.
  - apply upstream_base_plain.
Qed.

Lemma upstream_ref_parts_witness :
  lacks "/" "origin" = true
  /\ git_upstream_remote (upstream_short "origin" "release/1.0") = "origin"
  /\ upstream_base (upstream_short "origin" "main") = "main".
Proof.
  split; [reflexivity|]. split.
  - exact (proj1 (upstream_ref_parts "origin" "release/1.0" eq_refl)).
  - exact (proj2 (proj2 (upstream_ref_parts "origin" "main" eq_refl)) eq_refl).
Defined.

(** ** Commits without a label *)

Lemma mapM_In {C A B} (f : A -> result C B) l ys x y :
  mapM f l = Ok ys -> In x l -> f x = Ok y -> In y ys.
Proof.
  revert ys. induction l as [|z l IH]; intros ys; cbn [mapM]; [intros _ []|].
  destruct (f z) as [w|e] eqn:Ez; cbn [bind]; [|discriminate].
  destruct (mapM f l) as [ws|e]; cbn [bind]; [|discriminate].
  intros [= <-] [->|Hin] Hx.
  - left. congruence.
  - right. exact (IH ws eq_refl Hin Hx).
Qed.

Lemma branch_commits_ok repo upstream_branch log commits :
  branch_commits repo upstream_branch log = Ok commits ->
  commits = chain_from None log
  /\ validate_branch_commits repo commits = Ok tt
  /\ exists labels, mapM (gh_branch repo) commits = Ok labels.
Proof.
  unfold branch_commits.
  destruct (negb (truthy upstream_branch)); [discriminate|]. cbv zeta.
  destruct (match chain_from None log with [] => _ | _ :: _ => _ end);
    cbn [bind]; [|discriminate].
  destruct (validate_branch_commits repo (chain_from None log)) as [[]|e] eqn:Hv;
    cbn [bind]; [|discriminate].
  intros [= <-]. split; [reflexivity|]. split; [exact Hv|].
  rewrite validate_branch_commits_eq in Hv.
  destruct (nonempty _); [discriminate|].
  destruct (mapM (gh_branch repo) (chain_from None log)) as [labels|e];
    [eexists; reflexivity|discriminate].
Qed.

(** When the prefix is not configured, a single group is enough for the
    list of groups to raise the exception of git. *)
Lemma unset_prefix_raises repo commits labels k :
  mapM (gh_branch repo) commits = Ok labels ->
  In k labels ->
  grouped_commits repo None commits = Err CalledProcessError.
Proof.
  intros Hl Hk. unfold grouped_commits. rewrite Hl.
  cbn [bind gh_branch_prefix].
  apply mapM_fails.
  - intros g e [= <-]. reflexivity.
  - assert (H : In k (map fst (groupby (combine labels commits)))).
    { rewrite groupby_keys, combine_keys by (eapply mapM_length; exact Hl).
      apply In_run_keys. exact Hk. }
    apply in_map_iff in H as (g & _ & Hin).
    exists g. split; [exact Hin|reflexivity].
Qed.

(** X13: when the chain passes [branch_commits] and one of its commits
    resolves to no label, [push_branches] and [create_and_update_prs] both
    end in an exception while the list of groups is built, in a dry run
    too, so nothing is pushed and no pull request is looked up.  The
    exception is that of adding [None] to the prefix when the prefix is
    configured, and that of [git config] when it is not. *)
Theorem unlabelled_commit_stops_upload repo dry_run branch_prefix upstream_branch
  log get_pulls commits c :
  branch_commits repo upstream_branch log = Ok commits ->
  In c commits ->
  gh_branch repo c = Ok None ->
  push_branches repo dry_run branch_prefix upstream_branch log
  = Err (match branch_prefix with
         | Some _ => TypeError
         | None => CalledProcessError
         end)
  /\ create_and_update_prs repo dry_run branch_prefix upstream_branch log get_pulls
     = ([], Err (match branch_prefix with
                 | Some _ => TypeError
                 | None => CalledProcessError
                 end)).
Proof.
  intros Hb Hc Hn.
  destruct (branch_commits_ok _ _ _ _ Hb) as (_ & _ & labels & Hl).
  assert (Hin : In None labels) by exact (mapM_In _ _ _ _ _ Hl Hc Hn).
  assert (Hg : grouped_commits repo branch_prefix commits
               = Err (match branch_prefix with
                      | Some _ => TypeError
                      | None => CalledProcessError
                      end)).
  { destruct branch_prefix as [value|].
    - exact (none_label_type_error _ _ _ labels Hl Hin).
    - exact (unset_prefix_raises _ _ labels None Hl Hin). }
  unfold push_branches, create_and_update_prs. rewrite Hb. cbn [bind].
  rewrite Hg. split; reflexivity.
Qed.

Lemma unlabelled_commit_stops_upload_witness :
  branch_commits Examples.scenario "origin/main" Examples.scenario_log
  = Ok [Examples.a1; Examples.b2; Examples.c3; Examples.d4]
  /\ In Examples.a1 [Examples.a1; Examples.b2; Examples.c3; Examples.d4]
  /\ gh_branch Examples.scenario Examples.a1 = Ok None
  /\ push_branches Examples.scenario true (Some "me/") "origin/main"
       Examples.scenario_log
     = Err TypeError
  /\ push_branches Examples.scenario true None "origin/main"
       Examples.scenario_log
     = Err CalledProcessError.
Proof.
  split; [reflexivity|]. split; [left; reflexivity|]. split; [reflexivity|].
  split.
  - exact (proj1 (unlabelled_commit_stops_upload Examples.scenario true
                    (Some "me/") "origin/main" Examples.scenario_log
                    (fun _ => []) _ Examples.a1
                    eq_refl (or_introl eq_refl) eq_refl)).
  - exact (proj1 (unlabelled_commit_stops_upload Examples.scenario true
                    None "origin/main" Examples.scenario_log
                    (fun _ => []) _ Examples.a1
                    eq_refl (or_introl eq_refl) eq_refl)).
Defined.

(** ** The labels along a chain *)

Lemma no_gap_shape (labels : list (option string)) :
  ~ none_between labels ->
  exists n ls m,
    labels = (repeat None n ++ map Some ls ++ repeat None m)%list.
Proof.
  induction labels as [|x l IH]; intros H.
  - exists 0, [], 0. reflexivity.
  - destruct IH as (n & ls & m & ->).
    { intros (l1 & a & k & b & l3 & E). apply H.
      exists (x :: l1), a, k, b, l3. rewrite E. reflexivity. }
    destruct x as [a|].
    + destruct n as [|n].
      * exists 0, (a :: ls), m. reflexivity.
      * destruct ls as [|b ls].
        -- exists 0, [a], (S n + m). cbn [repeat map app].
           rewrite repeat_app. reflexivity.
        -- exfalso. apply H. exists [], a, n, b, (map Some ls ++ repeat None m)%list.
           reflexivity.
    + exists (S n), ls, m. reflexivity.
Qed.

(** X14: on a chain built from the log whose labels all resolve, the
    commits without a label are at the head and at the tail only: the
    labels are a run of none, then labels, then a run of none. *)
Theorem chain_labels_shape repo log labels :
  mapM (gh_branch repo) (chain_from None log) = Ok labels ->
  exists n ls m,
    labels = (repeat None n ++ map Some ls ++ repeat None m)%list.
Proof.
  intros H. apply no_gap_shape. exact (chain_has_no_gap _ _ _ _ H).
Qed.

Lemma chain_labels_shape_witness :
  mapM (gh_branch Examples.scenario) (chain_from None Examples.scenario_log)
  = Ok [None; Some "feat-x"; Some "feat-x"; Some "feat-y"]
  /\ exists n ls m,
       [None; Some "feat-x"; Some "feat-x"; Some "feat-y"]
       = (repeat None n ++ map Some ls ++ repeat None m)%list.
Proof.
  split; [reflexivity|].
  exact (chain_labels_shape Examples.scenario Examples.scenario_log _ eq_refl).
Defined.

(** X15: a commit of the chain whose message has the accepted marker marks
    itself and every commit after it in the chain: all of them resolve to no
    label, whatever their own annotation lines say. *)
Theorem marker_cuts_the_chain repo log pre c post :
  chain_from None log = (pre ++ c :: post)%list ->
  search_stop (commit_msg repo c) = true ->
  forall d, In d (c :: post) ->
    not_to_be_pushed repo d = true /\ gh_branch repo d = Ok None.
Proof.
  intros Hc Hs d Hd.
  assert (Hin : In c (ancestry d)).
  { destruct Hd as [<-|Hd]; [apply ancestry_self|].
    exact (chain_from_later _ _ _ _ _ Hc d Hd). }
  assert (H : not_to_be_pushed repo d = true).
  { apply not_to_be_pushed_ancestry. exists c. split; assumption. }
  split; [exact H|]. rewrite gh_branch_eq, H. reflexivity.
Qed.

Lemma marker_cuts_the_chain_witness :
  chain_from None ["a1"; "b2"] = ([] ++ Examples.a1 :: [Examples.b2])%list
  /\ search_stop (commit_msg Examples.stop_then_two_lines Examples.a1) = true
  /\ gh_branch Examples.stop_then_two_lines Examples.b2 = Ok None.
Proof.
  split; [reflexivity|]. split; [reflexivity|].
  exact (proj2 (marker_cuts_the_chain Examples.stop_then_two_lines ["a1"; "b2"]
                  [] Examples.a1 [Examples.b2] eq_refl eq_refl Examples.b2
                  (or_intror (or_introl eq_refl)))).
Defined.

(** ** [cmd_show] *)



Lemma somes_app {A} (l1 l2 : list (option A)) :
  Terms.somes (l1 ++ l2) = (Terms.somes l1 ++ Terms.somes l2)%list.
Proof.
  induction l1 as [|[x|] l1 IH]; cbn [app Terms.somes]; [reflexivity| |exact IH].
  rewrite IH. reflexivity.
Qed.




(** ** [cmd_upload] *)

Lemma push_branches_groups repo branch_prefix upstream_branch log pushes :
  push_branches repo false branch_prefix upstream_branch log = Ok pushes ->
  exists commits grouped,
    branch_commits repo upstream_branch log = Ok commits
    /\ grouped_commits repo branch_prefix commits = Ok grouped
    /\ map Terms.pushed_branch pushes = map (fun g => Some (fst g)) grouped.
Proof.
  intros Hp.
  destruct (push_branches_ok _ _ _ _ _ Hp) as (labels & grouped & Hv & Hl & Hg & ->).
  unfold push_branches in Hp.
  destruct (branch_commits repo upstream_branch log) as [commits|e] eqn:Hb;
    [|discriminate].
  destruct (branch_commits_ok _ _ _ _ Hb) as (-> & _ & _).
  exists (chain_from None log), grouped. split; [reflexivity|]. split.
  - unfold grouped_commits. rewrite Hl. exact Hg.
  - rewrite map_map. reflexivity.
Qed.

Lemma pr_loop_created_heads dry_run upstream_branch get_pulls grouped idx todo head :
  In (Some head)
     (map Commands.created_head
        (fst (pr_loop dry_run upstream_branch get_pulls grouped idx todo))) ->
  In head (map fst todo).
Proof.
  revert idx. induction todo as [|[branch cs] todo IH]; intros idx;
    [intros []|].
  rewrite pr_loop_step. cbv zeta. cbn [map fst].
  destruct (decide _ _ _) as [base h|n o b| |urls] eqn:Ed; cbn [fst];
    try (rewrite map_app, in_app_iff; intros [H|H]; [|right; exact (IH _ H)]).
  - destruct dry_run; cbn [perform map Commands.created_head In] in H;
      [destruct H|]. destruct H as [[= <-]|[]]. left.
    unfold decide in Ed. destruct (prs_for branch (get_pulls branch)) as [|p [|q ps]];
      [injection Ed as _ <-; reflexivity|destruct (negb _); discriminate|discriminate].
  - destruct dry_run; cbn [perform map Commands.created_head In] in H;
      [destruct H|]. destruct H as [[=]|[]].
  - destruct dry_run; destruct H.
  - intros [].
Qed.

(** X18: in an upload, a pull request is created only for a branch that
    the same upload has pushed: the head of every pull request created is
    the branch of one of the pushes. *)
Theorem created_heads_are_pushed repo branch_prefix upstream_branch log get_pulls
  acts r head :
  Commands.cmd_upload repo false branch_prefix upstream_branch log get_pulls
  = (acts, r) ->
  In (Some head) (map Commands.created_head acts) ->
  In (Some head) (map Terms.pushed_branch acts).
Proof.
  unfold Commands.cmd_upload.
  destruct (push_branches repo false branch_prefix upstream_branch log)
    as [pushes|e] eqn:Hp; [|intros [= <- _] []].
  destruct (push_branches_groups _ _ _ _ _ Hp) as (commits & grouped & Hb & Hg & Hm).
  unfold create_and_update_prs. rewrite Hb. cbn [bind]. rewrite Hg.
  destruct (pr_loop false upstream_branch get_pulls grouped 0 grouped)
    as [calls r'] eqn:Hloop.
  intros [= <- _]. rewrite !map_app, !in_app_iff. intros [Hin|Hin].
  - exfalso. rewrite in_map_iff in Hin. destruct Hin as (a & Ha & Hin).
    assert (Hpb : In (Terms.pushed_branch a) (map Terms.pushed_branch pushes))
      by (apply in_map; exact Hin).
    rewrite Hm in Hpb. apply in_map_iff in Hpb as (g & Hg' & _).
    destruct a; cbn in Ha, Hg'; discriminate.
  - left. rewrite Hm.
    assert (H : In head (map fst grouped)).
    { apply (pr_loop_created_heads false upstream_branch get_pulls grouped 0).
      rewrite Hloop. exact Hin. }
    apply in_map_iff in H as (g & <- & Hg'). apply in_map_iff. exists g. auto.
Qed.

Lemma created_heads_are_pushed_witness :
  Commands.cmd_upload Examples.scenario false (Some "") "origin/main"
    Examples.labelled_log (fun _ => [mkPR 3 "feat-y" "feat-x" "u3"])
  = ([ForcePush "origin" "c3" "feat-x"; ForcePush "origin" "d4" "feat-y";
      CreatePull "feat-x" "" "main" "feat-x"], Ok tt)
  /\ In (Some "feat-x")
        (map Commands.created_head
           [ForcePush "origin" "c3" "feat-x"; ForcePush "origin" "d4" "feat-y";
            CreatePull "feat-x" "" "main" "feat-x"])
  /\ In (Some "feat-x")
        (map Terms.pushed_branch
           [ForcePush "origin" "c3" "feat-x"; ForcePush "origin" "d4" "feat-y";
            CreatePull "feat-x" "" "main" "feat-x"]).
Proof.
  assert (H : In (Some "feat-x")
        (map Commands.created_head
           [ForcePush "origin" "c3" "feat-x"; ForcePush "origin" "d4" "feat-y";
            CreatePull "feat-x" "" "main" "feat-x"])).
  { right. right. left. reflexivity. }
  split; [reflexivity|]. split; [exact H|].
  exact (created_heads_are_pushed Examples.scenario (Some "") "origin/main"
           Examples.labelled_log (fun _ => [mkPR 3 "feat-y" "feat-x" "u3"])
           _ _ "feat-x" eq_refl H).
Defined.

(** ** [cmd_show] and [cmd_upload] together *)

Lemma mapM_label_of {C A B} (f : A -> result C B) l ys y :
  mapM f l = Ok ys -> In y ys -> exists x, In x l /\ f x = Ok y.
Proof.
  intros H Hin. destruct (in_split _ _ Hin) as (ys1 & ys2 & ->).
  destruct (mapM_split _ _ _ _ _ H) as (xs1 & x & xs2 & -> & _ & Hx & _).
  exists x. split; [|exact Hx]. apply in_elt.
Qed.

Lemma show_group_heading repo b cs :
  b <> EmptyString ->
  Terms.somes (map Commands.heading_branch (Commands.show_group repo (Some b, cs)))
  = [b].
Proof.
  intros Hb. unfold Commands.show_group, Commands.show_header. cbn [fst snd].
  apply truthy_iff in Hb. cbn [truthy_opt]. rewrite Hb.
  cbn [app map Commands.heading_branch Terms.somes]. f_equal.
  induction cs as [|c cs IH]; [reflexivity|exact IH].
Qed.

Lemma headings_of_groups repo (G : list (option string * list Commit)) bs :
  map fst G = map Some bs ->
  ~ In EmptyString bs ->
  Terms.somes (map Commands.heading_branch (flat_map (Commands.show_group repo) G))
  = bs.
Proof.
  revert bs. induction G as [|[k cs] G IH]; intros [|b bs]; cbn [map fst];
    try discriminate; [reflexivity|].
  intros [= -> HG] Hb. cbn [flat_map]. rewrite map_app, somes_app.
  rewrite show_group_heading by (intros ->; apply Hb; left; reflexivity).
  cbn [app]. f_equal. apply IH; [exact HG|].
  intros Hin. apply Hb. right. exact Hin.
Qed.

(** X19: when no commit resolves to the empty label, [push_branches]
    succeeds and [cmd_show] prints, the prefix is configured and the
    branch headings that [cmd_show] prints are, behind the prefix and in the
    same order, the branches that [push_branches] pushes to: what is shown
    is what an upload pushes. *)
Theorem shown_branches_are_pushed repo branch_prefix upstream_branch log acts out :
  (forall c, In c (chain_from None log) ->
             gh_branch repo c <> Ok (Some EmptyString)) ->
  push_branches repo false branch_prefix upstream_branch log = Ok acts ->
  Commands.cmd_show repo upstream_branch log = Commands.Shown out ->
  exists prefix,
    gh_branch_prefix branch_prefix = Ok prefix
    /\ map Terms.pushed_branch acts
       = map (fun b => Some (prefix ++ b)%string)
           (Terms.somes (map Commands.heading_branch out)).
Proof.
  intros Hne Hp.
  destruct (push_branches_ok _ _ _ _ _ Hp) as (labels & grouped & _ & Hl & Hg & ->).
  destruct (grouped_names _ _ _ Hg) as (prefix & bs & Hk & Hn & _ & Hpre).
  unfold Commands.cmd_show.
  destruct (branch_commits repo upstream_branch log) as [commits|e] eqn:Hb;
    [|discriminate].
  destruct (branch_commits_ok _ _ _ _ Hb) as (-> & _ & _).
  destruct (chain_from None log) as [|c0 commits] eqn:Hc; [discriminate|].
  cbn [nonempty negb]. rewrite Hl. intros [= <-].
  assert (Hlen : List.length labels = List.length (c0 :: commits))
    by (eapply mapM_length; exact Hl).
  exists prefix. split.
  - apply Hpre. intros HG.
    assert (H : concat (map snd (groupby (combine labels (c0 :: commits))))
                = c0 :: commits)
      by (rewrite groupby_concat; apply combine_snd; exact Hlen).
    rewrite HG in H. discriminate H.
  - cbn [map Commands.heading_branch Terms.somes].
    rewrite (headings_of_groups repo _ bs Hk).
    + rewrite map_map. cbn [Terms.pushed_branch].
      rewrite <- (map_map fst Some), Hn, map_map. reflexivity.
    + intros Hin.
      assert (Hin' : In (Some EmptyString) labels).
      { apply (in_map Some) in Hin. rewrite <- Hk in Hin.
        rewrite groupby_keys, combine_keys in Hin by exact Hlen.
        apply (proj1 (In_run_keys _ _)) in Hin. exact Hin. }
      destruct (mapM_label_of _ _ _ _ Hl Hin') as (c & Hin2 & Hc').
      exact (Hne c Hin2 Hc').
Qed.

Lemma shown_branches_are_pushed_witness :
  push_branches Examples.scenario false (Some "pr/") "origin/main" Examples.labelled_log
  = Ok [ForcePush "origin" "c3" "pr/feat-x"; ForcePush "origin" "d4" "pr/feat-y"]
  /\ Commands.cmd_show Examples.scenario "origin/main" Examples.labelled_log
     = Commands.Shown
         [Commands.Summary "origin/main" 3;
          Commands.BranchHeader "feat-x";
          Commands.LogLine "b2"; Commands.LogLine "c3";
          Commands.BranchHeader "feat-y"; Commands.LogLine "d4"]
  /\ exists prefix,
       gh_branch_prefix (Some "pr/") = Ok prefix
       /\ map Terms.pushed_branch
            [ForcePush "origin" "c3" "pr/feat-x"; ForcePush "origin" "d4" "pr/feat-y"]
          = map (fun b => Some (prefix ++ b)%string)
              (Terms.somes
                 (map Commands.heading_branch
                    [Commands.Summary "origin/main" 3;
                     Commands.BranchHeader "feat-x";
                     Commands.LogLine "b2"; Commands.LogLine "c3";
                     Commands.BranchHeader "feat-y"; Commands.LogLine "d4"])).
Proof.
  split; [reflexivity|]. split; [reflexivity|].
  refine (shown_branches_are_pushed Examples.scenario (Some "pr/") "origin/main"
            Examples.labelled_log
            [ForcePush "origin" "c3" "pr/feat-x"; ForcePush "origin" "d4" "pr/feat-y"]
            [Commands.Summary "origin/main" 3;
             Commands.BranchHeader "feat-x";
             Commands.LogLine "b2"; Commands.LogLine "c3";
             Commands.BranchHeader "feat-y"; Commands.LogLine "d4"]
            _ eq_refl eq_refl).
  intros c Hc.
  repeat (destruct Hc as [<-|Hc]; [discriminate|]). destruct Hc.
Defined.

(** ** The pattern of [gh_repo_client] *)

Lemma literal_sound p s r : literal p s = Some r -> s = (p ++ r)%string.
Proof.
  revert s. induction p as [|a p IH]; intros [|b s]; simpl; try discriminate.
  - intros [= <-]. reflexivity.
  - intros [= <-]. reflexivity.
  - destruct (Ascii.eqb a b) eqn:E; [|discriminate].
    apply Ascii.eqb_eq in E. subst b. intros H. rewrite (IH _ H). reflexivity.
Qed.

Lemma literal_complete p r : literal p (p ++ r) = Some r.
Proof.
  induction p as [|a p IH]; simpl; [reflexivity|].
  rewrite Ascii.eqb_refl. exact IH.
Qed.

Lemma string_app_assoc (a b c : string) : ((a ++ b) ++ c = a ++ b ++ c)%string.
Proof. induction a as [|x a IH]; simpl; [reflexivity|]. rewrite IH. reflexivity. Qed.

Lemma string_app_nil_r (a : string) : (a ++ "" = a)%string.
Proof. induction a as [|x a IH]; simpl; [reflexivity|]. rewrite IH. reflexivity. Qed.

Lemma sep_free_app a b :
  Remote.sep_free (a ++ b) = Remote.sep_free a && Remote.sep_free b.
Proof.
  induction a as [|c a IH]; simpl; [reflexivity|].
  rewrite IH, andb_assoc. reflexivity.
Qed.

Lemma first_some_sound {A B} (f : A -> option B) l y :
  Remote.first_some f l = Some y -> exists x, In x l /\ f x = Some y.
Proof.
  induction l as [|x l IH]; cbn [Remote.first_some]; [discriminate|].
  destruct (f x) as [z|] eqn:E.
  - intros [= <-]. exists x. split; [left; reflexivity|exact E].
  - intros H. destruct (IH H) as (x' & Hin & Hx). exists x'. split; [right|]; assumption.
Qed.

Lemma first_some_unique {A B} (f : A -> option B) l x y :
  In x l -> f x = Some y ->
  (forall x' y', In x' l -> f x' = Some y' -> y' = y) ->
  Remote.first_some f l = Some y.
Proof.
  intros Hin Hx Hu. induction l as [|z l IH]; [destruct Hin|].
  cbn [Remote.first_some]. destruct (f z) as [w|] eqn:E.
  - f_equal. apply (Hu z w); [left; reflexivity|exact E].
  - destruct Hin as [->|Hin]; [congruence|].
    apply IH; [exact Hin|]. intros x' y' H'. apply Hu. right. exact H'.
Qed.

(** Every way [plus_not_sep] offers splits the subject after one or more
    characters that are not separators. *)
Lemma plus_not_sep_sound s t r :
  In (t, r) (Remote.plus_not_sep s) ->
  s = (t ++ r)%string /\ t <> EmptyString /\ Remote.sep_free t = true.
Proof.
  revert t r. induction s as [|c s IH]; intros t r; cbn [Remote.plus_not_sep];
    [intros []|].
  destruct (Remote.is_sep c) eqn:Ec; [intros []|].
  rewrite in_app_iff. intros [H|[[= <- <-]|[]]].
  - apply in_map_iff in H as ([t' r'] & [= <- <-] & H). cbn [fst snd].
    destruct (IH _ _ H) as (-> & _ & Hf). repeat split; [discriminate|].
    simpl. rewrite Ec, Hf. reflexivity.
  - repeat split; [discriminate|]. simpl. rewrite Ec. reflexivity.
Qed.

Lemma plus_not_sep_complete t r :
  t <> EmptyString -> Remote.sep_free t = true ->
  In (t, r) (Remote.plus_not_sep (t ++ r)).
Proof.
  induction t as [|c t IH]; [intros H; contradiction H; reflexivity|].
  intros _ Hf. simpl in Hf. apply andb_true_iff in Hf as [Hc Hf].
  apply negb_true_iff in Hc. cbn [append Remote.plus_not_sep]. rewrite Hc.
  apply in_or_app. destruct t as [|d t].
  - right. left. reflexivity.
  - left. apply in_map_iff. exists (String d t, r). split; [reflexivity|].
    apply IH; [discriminate|exact Hf].
Qed.

(** Two strings without separators that are followed by a separator in
    the same subject are the same string. *)
Lemma sep_free_prefix_unique t1 c1 r1 t2 c2 r2 :
  Remote.sep_free t1 = true -> Remote.sep_free t2 = true ->
  Remote.is_sep c1 = true -> Remote.is_sep c2 = true ->
  (t1 ++ String c1 r1 = t2 ++ String c2 r2)%string ->
  t1 = t2 /\ r1 = r2.
Proof.
  revert t2. induction t1 as [|a t1 IH]; intros [|b t2]; simpl;
    intros H1 H2 Hc1 Hc2 E.
  - injection E as _ E. auto.
  - injection E as -> _. rewrite Hc1 in H2. discriminate.
  - injection E as -> _. rewrite Hc2 in H1. discriminate.
  - injection E as -> E. apply andb_true_iff in H1 as [_ H1].
    apply andb_true_iff in H2 as [_ H2].
    destruct (IH _ H1 H2 Hc1 Hc2 E) as [-> ->]. auto.
Qed.

Lemma count_sep_app a b : Remote.count_sep (a ++ b) = Remote.count_sep a + Remote.count_sep b.
Proof. induction a as [|c a IH]; simpl; [reflexivity|]. rewrite IH. lia. Qed.

Lemma count_sep_free a : Remote.sep_free a = true -> Remote.count_sep a = 0.
Proof.
  induction a as [|c a IH]; simpl; [reflexivity|]. intros H.
  apply andb_true_iff in H as [Hc H]. apply negb_true_iff in Hc.
  rewrite Hc, (IH H). reflexivity.
Qed.

Lemma at_end_cases r : Remote.at_end r = true -> r = EmptyString \/ r = Git.nl.
Proof.
  destruct r as [|c [|d r]]; simpl; try discriminate; [left; reflexivity|].
  intros H. apply Ascii.eqb_eq in H. subst c. right. reflexivity.
Qed.

(** A match at the current position has the shape of the pattern. *)
Lemma repo_at_sound s g :
  Remote.repo_at s = Some g ->
  exists c a b tail,
    s = String c (a ++ "/" ++ b ++ ".git" ++ tail)
    /\ Remote.is_sep c = true
    /\ a <> EmptyString /\ Remote.sep_free a = true
    /\ b <> EmptyString /\ Remote.sep_free b = true
    /\ (tail = EmptyString \/ tail = Git.nl)
    /\ g = (a ++ "/" ++ b)%string.
Proof.
  destruct s as [|c r]; cbn [Remote.repo_at]; [discriminate|].
  destruct (Remote.is_sep c) eqn:Ec; [|discriminate].
  intros H. apply first_some_sound in H as ([a r1] & Ha & H). cbn [fst snd] in H.
  destruct (literal "/" r1) as [r2|] eqn:E1; [|discriminate].
  apply first_some_sound in H as ([b r3] & Hb & H). cbn [fst snd] in H.
  destruct (literal ".git" r3) as [r4|] eqn:E2; [|discriminate].
  destruct (Remote.at_end r4) eqn:E3; [|discriminate]. injection H as <-.
  apply plus_not_sep_sound in Ha as (-> & Ha1 & Ha2).
  apply plus_not_sep_sound in Hb as (-> & Hb1 & Hb2).
  apply literal_sound in E1. apply literal_sound in E2. subst r1 r3.
  exists c, a, b, r4. repeat split; try assumption.
  apply at_end_cases. exact E3.
Qed.

Lemma last_char_app x y :
  y <> EmptyString -> Remote.last_char (x ++ y) = Remote.last_char y.
Proof.
  intros Hy. induction x as [|c x IH]; [reflexivity|].
  cbn [append Remote.last_char]. rewrite IH.
  destruct (x ++ y)%string eqn:E; [|reflexivity].
  destruct x; [simpl in E; contradiction|discriminate].
Qed.

Lemma string_length_app (a b : string) :
  String.length (a ++ b) = String.length a + String.length b.
Proof. induction a as [|x a IH]; simpl; [reflexivity|]. rewrite IH. reflexivity. Qed.

Lemma string_app_inv_tail (a b t : string) : (a ++ t = b ++ t)%string -> a = b.
Proof.
  revert b. induction a as [|x a IH]; intros [|y b]; simpl; intros E.
  - reflexivity.
  - exfalso. apply (f_equal String.length) in E. simpl in E.
    rewrite string_length_app in E. lia.
  - exfalso. apply (f_equal String.length) in E. simpl in E.
    rewrite string_length_app in E. lia.
  - injection E as -> E. rewrite (IH _ E). reflexivity.
Qed.

(** The match at a separator that is followed by [user/repo.git] and the
    end. *)
Lemma repo_at_complete c user repo :
  Remote.is_sep c = true ->
  user <> EmptyString -> Remote.sep_free user = true ->
  repo <> EmptyString -> Remote.sep_free repo = true ->
  Remote.repo_at (String c (user ++ "/" ++ repo ++ ".git"))
  = Some (user ++ "/" ++ repo)%string.
Proof.
  intros Hc Hu1 Hu2 Hr1 Hr2. cbn [Remote.repo_at]. rewrite Hc.
  assert (Hinner :
    Remote.first_some
      (fun b => match literal ".git" (snd b) with
                | Some r3 => if Remote.at_end r3
                             then Some (user ++ "/" ++ fst b)%string else None
                | None => None
                end) (Remote.plus_not_sep (repo ++ ".git"))
    = Some (user ++ "/" ++ repo)%string).
  { apply (first_some_unique _ _ (repo, ".git")).
    - apply plus_not_sep_complete; assumption.
    - reflexivity.
    - intros [t r] y Hin. cbn [fst snd].
      apply plus_not_sep_sound in Hin as (E & _ & _).
      destruct (literal ".git" r) as [r3|] eqn:El; [|discriminate].
      destruct (Remote.at_end r3) eqn:Ee; [|discriminate]. intros [= <-].
      apply literal_sound in El. subst r.
      apply at_end_cases in Ee as [-> | ->].
      + apply string_app_inv_tail in E. subst t. reflexivity.
      + exfalso. apply (f_equal Remote.last_char) in E.
        rewrite !last_char_app in E by discriminate. discriminate E. }
  apply (first_some_unique _ _ (user, "/" ++ repo ++ ".git")%string).
  - apply plus_not_sep_complete; assumption.
  - cbn [fst snd]. rewrite (literal_complete "/" (repo ++ ".git")). exact Hinner.
  - intros [t r] y Hin. cbn [fst snd].
    apply plus_not_sep_sound in Hin as (E & _ & Ht).
    destruct (literal "/" r) as [r2|] eqn:El; [|discriminate].
    apply literal_sound in El. subst r. cbn [append] in E.
    destruct (sep_free_prefix_unique user "/" (repo ++ ".git") t "/" r2
                Hu2 Ht eq_refl eq_refl E) as [<- <-].
    rewrite Hinner. intros [= <-]. reflexivity.
Qed.

(** X20: when [gh_repo_client] finds a name, the stripped url of the
    remote ends in a separator ([/] or [:]), a user, a slash, a repository
    and [.git] (and at most a newline), user and repository are not empty
    and hold no separator, and the name is the user, a slash and the
    repository.  So a url that does not end in [.git] is refused. *)
Theorem repo_name_shape upstream_branch get_url name :
  Remote.gh_repo_name upstream_branch get_url = Remote.RepoNamed name ->
  exists pre c user repo tail,
    strip (get_url (git_upstream_remote upstream_branch))
    = (pre ++ String c (user ++ "/" ++ repo ++ ".git" ++ tail))%string
    /\ Remote.is_sep c = true
    /\ user <> EmptyString /\ Remote.sep_free user = true
    /\ repo <> EmptyString /\ Remote.sep_free repo = true
    /\ (tail = EmptyString \/ tail = Git.nl)
    /\ name = (user ++ "/" ++ repo)%string.
Proof.
  unfold Remote.gh_repo_name. cbv zeta.
  generalize (strip (get_url (git_upstream_remote upstream_branch))). intros s.
  destruct (Remote.search_repo s) as [g|] eqn:E; [|discriminate].
  intros [= <-]. revert E. induction s as [|x s IH]; cbn [Remote.search_repo].
  - discriminate.
  - destruct (Remote.repo_at (String x s)) as [g'|] eqn:Ea.
    + intros [= <-]. destruct (repo_at_sound _ _ Ea) as (c & a & b & tail & H).
      exists EmptyString, c, a, b, tail. exact H.
    + intros H. destruct (IH H) as (pre & c & a & b & tail & -> & H').
      exists (String x pre), c, a, b, tail. split; [reflexivity|exact H'].
Qed.

Lemma repo_name_shape_witness :
  Remote.gh_repo_name "origin/main" (fun _ => "git@github.com:jlebar/git-pr-chain.git" ++ Git.nl)
  = Remote.RepoNamed "jlebar/git-pr-chain"
  /\ exists pre c user repo tail,
       strip ((fun _ => "git@github.com:jlebar/git-pr-chain.git" ++ Git.nl)
                (git_upstream_remote "origin/main"))
       = (pre ++ String c (user ++ "/" ++ repo ++ ".git" ++ tail))%string
       /\ Remote.is_sep c = true
       /\ user <> EmptyString /\ Remote.sep_free user = true
       /\ repo <> EmptyString /\ Remote.sep_free repo = true
       /\ (tail = EmptyString \/ tail = Git.nl)
       /\ "jlebar/git-pr-chain" = (user ++ "/" ++ repo)%string.
Proof.
  split; [reflexivity|].
  exact (repo_name_shape "origin/main"
           (fun _ => "git@github.com:jlebar/git-pr-chain.git" ++ Git.nl) _ eq_refl).
Defined.

Lemma search_repo_cons x s :
  Remote.search_repo (String x s) =
  match Remote.repo_at (String x s) with
  | Some g => Some g
  | None => Remote.search_repo s
  end.
Proof. reflexivity. Qed.

(** X21: when the stripped url of the remote is anything, then a separator,
    a user, a slash, a repository and [.git], where user and repository are
    not empty and hold no separator, [gh_repo_client] finds the name
    user/repository: the ssh form and the https form that ends in [.git]
    are both accepted. *)
Theorem repo_name_found upstream_branch get_url pre c user repo :
  strip (get_url (git_upstream_remote upstream_branch))
  = (pre ++ String c (user ++ "/" ++ repo ++ ".git"))%string ->
  Remote.is_sep c = true ->
  user <> EmptyString -> Remote.sep_free user = true ->
  repo <> EmptyString -> Remote.sep_free repo = true ->
  Remote.gh_repo_name upstream_branch get_url
  = Remote.RepoNamed (user ++ "/" ++ repo).
Proof.
  intros E Hc Hu1 Hu2 Hr1 Hr2. unfold Remote.gh_repo_name. cbv zeta. rewrite E.
  assert (H : Remote.search_repo (pre ++ String c (user ++ "/" ++ repo ++ ".git"))
              = Some (user ++ "/" ++ repo)%string); [|rewrite H; reflexivity].
  clear E. induction pre as [|x pre IH].
  - change (EmptyString ++ String c (user ++ "/" ++ repo ++ ".git"))%string
      with (String c (user ++ "/" ++ repo ++ ".git")).
    rewrite search_repo_cons, (repo_at_complete c user repo) by assumption.
    reflexivity.
  - change (String x pre ++ String c (user ++ "/" ++ repo ++ ".git"))%string
      with (String x (pre ++ String c (user ++ "/" ++ repo ++ ".git"))).
    rewrite search_repo_cons.
    destruct (Remote.repo_at _) as [g|] eqn:Ea; [exfalso|exact IH].
    destruct (repo_at_sound _ _ Ea) as (c' & a & b & tail & E & _ & _ & Ha & _ & Hb
                                        & Ht & _).
    injection E as _ E. apply (f_equal Remote.count_sep) in E.
    repeat (rewrite ?count_sep_app in E; cbn [Remote.count_sep append] in E).
    rewrite Hc in E.
    rewrite (count_sep_free _ Hu2), (count_sep_free _ Hr2) in E.
    rewrite (count_sep_free _ Ha), (count_sep_free _ Hb) in E.
    destruct Ht as [-> | ->]; cbn in E; lia.
Qed.

Lemma repo_name_found_witness :
  strip ((fun _ => "https://github.com/jlebar/git-pr-chain.git" ++ Git.nl)
           (git_upstream_remote "origin/main"))
  = ("https://github.com"
     ++ String "/" ("jlebar" ++ "/" ++ "git-pr-chain" ++ ".git"))%string
  /\ Remote.gh_repo_name "origin/main"
       (fun _ => "https://github.com/jlebar/git-pr-chain.git" ++ Git.nl)
     = Remote.RepoNamed "jlebar/git-pr-chain".
Proof.
  split; [reflexivity|].
  apply (repo_name_found "origin/main"
           (fun _ => "https://github.com/jlebar/git-pr-chain.git" ++ Git.nl)
           "https://github.com" "/" "jlebar" "git-pr-chain");
    try reflexivity; discriminate.
Defined.

(** ** [gh_client] *)

(** X22: without [HOME] in the environment [gh_client] ends in a
    [KeyError], whatever [XDG_CONFIG_HOME] and the files are: the default
    of the lookup of [XDG_CONFIG_HOME] is computed before the lookup. *)
Theorem home_is_required environ files :
  environ "HOME" = None ->
  Auth.gh_client environ files = Auth.Raised Auth.KeyError.
Proof.
  intros H. unfold Auth.gh_client, Auth.config_dir. rewrite H. reflexivity.
Qed.

Lemma home_is_required_witness :
  Configs.xdg_only "HOME" = None
  /\ Auth.gh_client Configs.xdg_only Configs.everywhere
     = Auth.Raised Auth.KeyError.
Proof.
  split; [reflexivity|].
  exact (home_is_required Configs.xdg_only Configs.everywhere eq_refl).
Defined.

(** X23: the token [gh_client] makes the client of is a true value, and it
    is what the file of gh holds at [github.com], [0], [oauth_token]; or
    the file of gh is absent, lacks a key, has an empty list or holds a
    false value there, and the token is what the file of hub holds
    there. *)
Theorem token_source environ files token :
  Auth.gh_client environ files = Auth.Github token ->
  Auth.truth token = true
  /\ exists dir,
       Auth.config_dir environ = Auth.Return dir
       /\ (Auth.read_token files dir "gh/config.yml" = Auth.Return token
           \/ ((exists t0, Auth.get_token_from files dir "gh/config.yml"
                              = Auth.Return t0 /\ Auth.truth t0 = false)
               /\ Auth.read_token files dir "hub" = Auth.Return token)).
Proof.
  unfold Auth.gh_client.
  destruct (Auth.config_dir environ) as [dir|e]; [|discriminate].
  cbn [Auth.first_token].
  assert (Hread : forall fname t,
            Auth.get_token_from files dir fname = Auth.Return t ->
            Auth.truth t = true ->
            Auth.read_token files dir fname = Auth.Return t).
  { intros fname t. unfold Auth.get_token_from.
    destruct (Auth.read_token files dir fname) as [v|[]]; try discriminate;
      try (intros [= <-]; discriminate). intros [= <-] _. reflexivity. }
  destruct (Auth.get_token_from files dir "gh/config.yml") as [t1|e] eqn:E1;
    cbn [Auth.and_then]; [|discriminate].
  destruct (Auth.truth t1) eqn:T1.
  - rewrite T1. intros [= <-]. split; [exact T1|]. exists dir.
    split; [reflexivity|]. left. apply Hread; assumption.
  - destruct (Auth.get_token_from files dir "hub") as [t2|e] eqn:E2;
      cbn [Auth.and_then]; [|discriminate].
    destruct (Auth.truth t2) eqn:T2.
    + rewrite T2. intros [= <-]. split; [exact T2|]. exists dir.
      split; [reflexivity|]. right. split.
      * exists t1. split; [exact E1|exact T1].
      * apply Hread; assumption.
    + rewrite T2. discriminate.
Qed.

Lemma token_source_witness :
  Auth.gh_client Configs.home_only Configs.hub_only
  = Auth.Github (Auth.YStr "t0k")
  /\ Auth.truth (Auth.YStr "t0k") = true.
Proof.
  split; [reflexivity|].
  exact (proj1 (token_source Configs.home_only Configs.hub_only
                  (Auth.YStr "t0k") eq_refl)).
Defined.

(** X24: when the file of gh holds a mapping with a string that is not
    empty at [github.com], [0], [oauth_token], that string is the token,
    and the file of hub is not read: it may be absent or not valid YAML. *)
Theorem gh_token_wins environ files dir m e rest tok :
  Auth.config_dir environ = Auth.Return dir ->
  files (Auth.path_join dir "gh/config.yml") = Auth.Yaml (Auth.YMap m) ->
  Auth.lookup "github.com" m = Some (Auth.YList (Auth.YMap e :: rest)) ->
  Auth.lookup "oauth_token" e = Some (Auth.YStr tok) ->
  tok <> EmptyString ->
  Auth.gh_client environ files = Auth.Github (Auth.YStr tok).
Proof.
  intros Hd Hf Hm He Ht. unfold Auth.gh_client. rewrite Hd.
  cbn [Auth.first_token]. unfold Auth.get_token_from at 1, Auth.read_token at 1.
  rewrite Hf. cbn [Auth.subscript Auth.and_then]. rewrite Hm.
  cbn [Auth.and_then Auth.subscript_0 Auth.subscript]. rewrite He.
  cbn [Auth.and_then Auth.truth]. apply truthy_iff in Ht. rewrite Ht.
  cbn [Auth.truth]. rewrite Ht. reflexivity.
Qed.

Lemma gh_token_wins_witness :
  Auth.config_dir Configs.home_only = Auth.Return "/home/u/.config"
  /\ Configs.gh_only "/home/u/.config/hub" = Auth.BadYaml
  /\ Auth.gh_client Configs.home_only Configs.gh_only
     = Auth.Github (Auth.YStr "t0k").
Proof.
  split; [reflexivity|]. split; [reflexivity|].
  apply (gh_token_wins Configs.home_only Configs.gh_only "/home/u/.config"
           Configs.hosts
           [("user", Auth.YStr "u"); ("oauth_token", Auth.YStr "t0k")] [] "t0k");
    try reflexivity.
  discriminate.
Defined.

(** X25: when the file of gh is there and loads to anything but a mapping
    (an empty file loads to null), [gh_client] ends in a [TypeError]: the
    file of hub is not tried, and the fatal message about the token is not
    printed. *)
Theorem config_not_a_mapping environ files dir v :
  Auth.config_dir environ = Auth.Return dir ->
  files (Auth.path_join dir "gh/config.yml") = Auth.Yaml v ->
  (forall m, v <> Auth.YMap m) ->
  Auth.gh_client environ files = Auth.Raised Auth.TypeError.
Proof.
  intros Hd Hf Hv. unfold Auth.gh_client. rewrite Hd.
  cbn [Auth.first_token]. unfold Auth.get_token_from at 1, Auth.read_token at 1.
  rewrite Hf. destruct v; try reflexivity. contradiction (Hv m). reflexivity.
Qed.

Lemma config_not_a_mapping_witness :
  Auth.config_dir Configs.home_only = Auth.Return "/home/u/.config"
  /\ (forall m, Auth.YNull <> Auth.YMap m)
  /\ Auth.gh_client Configs.home_only Configs.gh_empty
     = Auth.Raised Auth.TypeError.
Proof.
  assert (H : forall m, Auth.YNull <> Auth.YMap m) by (intros m; discriminate).
  split; [reflexivity|]. split; [exact H|].
  exact (config_not_a_mapping Configs.home_only Configs.gh_empty
           "/home/u/.config" Auth.YNull eq_refl eq_refl H).
Defined.

(** ** An upload without a client *)

Lemma push_branches_grouped repo dry_run branch_prefix upstream_branch log pushes :
  push_branches repo dry_run branch_prefix upstream_branch log = Ok pushes ->
  exists grouped,
    (commits <- branch_commits repo upstream_branch log ;;
     grouped_commits repo branch_prefix commits) = Ok grouped.
Proof.
  unfold push_branches.
  destruct (branch_commits repo upstream_branch log) as [commits|e];
    cbn [bind]; [|discriminate].
  destruct (grouped_commits repo branch_prefix commits) as [grouped|e];
    cbn [bind]; [|discriminate].
  intros _. exists grouped. reflexivity.
Qed.

(** X26: when [push_branches] succeeds and [gh_repo_client] gives no
    client (the url names no repository, no token is found, or the lookup
    of the token raises), [cmd_upload] has made the pushes by then and
    nothing else, and ends in that failure: the branches are force-pushed
    before the token is looked for, and a dry run needs the token as
    well. *)
Theorem pushes_come_before_the_client repo dry_run branch_prefix upstream_branch
  log get_url environ files get_repo pushes e :
  push_branches repo dry_run branch_prefix upstream_branch log = Ok pushes ->
  Upload.gh_repo_client upstream_branch get_url environ files get_repo = inr e ->
  Upload.cmd_upload repo dry_run branch_prefix upstream_branch log get_url
    environ files get_repo
  = (pushes, e).
Proof.
  intros Hp Hc. unfold Upload.cmd_upload. rewrite Hp.
  destruct (push_branches_grouped _ _ _ _ _ _ Hp) as (grouped & Hg).
  unfold Upload.create_and_update_prs. rewrite Hg, Hc.
  rewrite app_nil_r. reflexivity.
Qed.

Lemma pushes_come_before_the_client_witness :
  Upload.gh_repo_client "origin/main"
    (fun _ => "git@github.com:jlebar/git-pr-chain.git")
    Configs.home_only (fun _ => Auth.NoFile) (fun _ _ _ => [])
  = inr Upload.NoTokenFound
  /\ Upload.cmd_upload Examples.scenario false (Some "") "origin/main"
       Examples.labelled_log
       (fun _ => "git@github.com:jlebar/git-pr-chain.git")
       Configs.home_only (fun _ => Auth.NoFile) (fun _ _ _ => [])
     = ([ForcePush "origin" "c3" "feat-x"; ForcePush "origin" "d4" "feat-y"],
        Upload.NoTokenFound).
Proof.
  split; [reflexivity|].
  exact (pushes_come_before_the_client Examples.scenario false (Some "") "origin/main"
           Examples.labelled_log
           (fun _ => "git@github.com:jlebar/git-pr-chain.git")
           Configs.home_only (fun _ => Auth.NoFile) (fun _ _ _ => [])
           [ForcePush "origin" "c3" "feat-x"; ForcePush "origin" "d4" "feat-y"]
           Upload.NoTokenFound eq_refl eq_refl).
Defined.

(** When the url of the remote names a repository and a token is found,
    [cmd_upload] is the pushes followed by the loop over the pull requests
    that the registry answers with for that name and that token; it ends
    normally when the loop does. *)
Lemma upload_with_a_client repo dry_run branch_prefix upstream_branch log
  get_url environ files get_repo name token :
  Remote.gh_repo_name upstream_branch get_url = Remote.RepoNamed name ->
  Auth.gh_client environ files = Auth.Github token ->
  Upload.cmd_upload repo dry_run branch_prefix upstream_branch log get_url
    environ files get_repo
  = (let (calls, r) :=
       Commands.cmd_upload repo dry_run branch_prefix upstream_branch log
         (get_repo name token) in
     (calls, match r with
             | Ok _ => Upload.Finished
             | Err e => Upload.Failed e
             end)).
Proof.
  intros Hn Ht. unfold Upload.cmd_upload, Commands.cmd_upload.
  destruct (push_branches repo dry_run branch_prefix upstream_branch log)
    as [pushes|e]; [|reflexivity].
  unfold Upload.create_and_update_prs, create_and_update_prs,
    Upload.gh_repo_client.
  rewrite Hn, Ht.
  destruct (bind _ _) as [grouped|e]; [|reflexivity].
  destruct (pr_loop _ _ _ _ _ _) as [calls r]. reflexivity.
Qed.

Lemma upload_with_a_client_witness :
  Remote.gh_repo_name "origin/main"
    (fun _ => "git@github.com:jlebar/git-pr-chain.git")
  = Remote.RepoNamed "jlebar/git-pr-chain"
  /\ Auth.gh_client Configs.home_only Configs.hub_only
     = Auth.Github (Auth.YStr "t0k")
  /\ Upload.cmd_upload Examples.scenario false (Some "") "origin/main"
       Examples.labelled_log
       (fun _ => "git@github.com:jlebar/git-pr-chain.git")
       Configs.home_only Configs.hub_only (fun _ _ _ => [])
     = ([ForcePush "origin" "c3" "feat-x"; ForcePush "origin" "d4" "feat-y";
         CreatePull "feat-x" "" "main" "feat-x";
         CreatePull "feat-y" "" "feat-x" "feat-y"],
        Upload.Finished).
Proof.
  split; [reflexivity|]. split; [reflexivity|].
  exact (upload_with_a_client Examples.scenario false (Some "") "origin/main"
           Examples.labelled_log
           (fun _ => "git@github.com:jlebar/git-pr-chain.git")
           Configs.home_only Configs.hub_only (fun _ _ _ => [])
           "jlebar/git-pr-chain" (Auth.YStr "t0k") eq_refl eq_refl).
Defined.
